(** * PolySort: the adaptive hybrid sort of [polysort.c]

    A shallow embedding of the C program and the proofs of its properties.

    Conventions of the embedding.
    - A C [int] is a [Z]; where the program's arithmetic can leave the
      32-bit range ([exp *= 10], [a - b] in the comparator,
      [sample_size - 1]) the two's-complement wrap-around is written
      out with [wrap].  Index arithmetic that stays inside [-1 .. n] is
      written without it.
    - An [int] array is a [list Z].  Every read [arr[i]] and write
      [arr[i] = v] is bounds-checked: an access outside the array, a
      division by zero and [INT_MIN / -1] are undefined behaviour in C and
      make the embedded function return [None].
    - [for] loops whose counter is only stepped by the loop header run a
      number of iterations fixed on entry; [while] loops and the two
      recursive sorts carry a fuel argument, and the theorems show that
      the fuel given by the callers is never the reason for [None].
    - [malloc] is assumed to succeed for a non-negative size; a negative
      size (converted to a huge [size_t]) takes the function's
      allocation-failure return.
    - [printf] output is not modelled. *)

From Stdlib Require Import ZArith Lia Floats Uint63 QArith.
From stdpp Require Import base option list sorting.

Local Open Scope Z_scope.
Set Warnings "-inexact-float".

(** ** Machine integers *)

Definition INT_MIN : Z := - 2 ^ 31.
Definition INT_MAX : Z := 2 ^ 31 - 1.

(** Two's-complement reduction of a mathematical integer to an [int]. *)
Definition wrap (z : Z) : Z := (z + 2 ^ 31) mod 2 ^ 32 - 2 ^ 31.

(** C's [/] on [int]: truncation towards zero; undefined for a zero
    divisor and for [INT_MIN / -1]. *)
Definition int_div (a b : Z) : option Z :=
  if (b =? 0) || ((a =? INT_MIN) && (b =? -1)) then None else Some (a ÷ b).

(** [(double) z] for an [int] [z]: exact. *)
Definition double_of_int (z : Z) : float :=
  if z <? 0 then PrimFloat.opp (PrimFloat.of_uint63 (Uint63.of_Z (- z)))
  else PrimFloat.of_uint63 (Uint63.of_Z z).

(** [x >= y] on [double]: false as soon as one side is a NaN. *)
Definition double_ge (x y : float) : bool := PrimFloat.leb y x.
Definition double_le (x y : float) : bool := PrimFloat.leb x y.

(** ** Arrays *)

Definition load (arr : list Z) (i : Z) : option Z :=
  if 0 <=? i then arr !! Z.to_nat i else None.

Definition store (arr : list Z) (i v : Z) : option (list Z) :=
  if (0 <=? i) && (i <? Z.of_nat (length arr))
  then Some (<[Z.to_nat i := v]> arr) else None.

(** ** Loops *)

Section Loops.
Context {St : Type}.

(** [k] iterations of [body], the counter starting at [i] and moving by
    [step] after each. *)
Fixpoint iterate (k : nat) (i step : Z) (body : Z → St → option St)
    (s : St) : option St :=
  match k with
  | O => Some s
  | S k' => s' ← body i s; iterate k' (i + step) step body s'
  end.

(** [for (i = lo; i < hi; i++) body] *)
Definition for_lt (lo hi : Z) := iterate (Z.to_nat (hi - lo)) lo 1.
(** [for (i = lo; i <= hi; i++) body] *)
Definition for_le (lo hi : Z) := iterate (Z.to_nat (hi - lo + 1)) lo 1.
(** [for (i = hi; i >= lo; i--) body] *)
Definition for_down (hi lo : Z) := iterate (Z.to_nat (hi - lo + 1)) hi (-1).

(** [while (cond) body], at most [fuel] iterations. *)
Fixpoint while (fuel : nat) (cond : St → option bool)
    (body : St → option St) (s : St) : option St :=
  c ← cond s;
  if c : bool then
    match fuel with
    | O => None
    | S fuel' => s' ← body s; while fuel' cond body s'
    end
  else Some s.
End Loops.

(** ** 1. Constants and strategy definitions *)

Definition INSERTION_SORT_THRESHOLD : Z := 32.
Definition ANALYSIS_SAMPLE_SIZE : Z := 100.
Definition NEARLY_SORTED_THRESHOLD : float := 0.85%float.
Definition LOW_CARDINALITY_THRESHOLD : float := 0.20%float.

Inductive SortStrategy : Set :=
  | STRATEGY_MERGESORT
  | STRATEGY_RADIXSORT
  | STRATEGY_QUICKSORT.

(** ** 6. Utility functions used by the core *)

(** [swap(&arr[a], &arr[b])] *)
Definition swap (arr : list Z) (a b : Z) : option (list Z) :=
  t ← load arr a;
  vb ← load arr b;
  arr1 ← store arr a vb;
  store arr1 b t.

(** [compareInts]: the difference of the two ints, which wraps. *)
Definition compareInts (a b : Z) : Z := wrap (a - b).

(** The C library's [qsort] is not part of the repository; it is taken
    here as an insertion sort driven by the comparator. *)
Fixpoint qsort_insert (cmp : Z → Z → Z) (x : Z) (l : list Z) : list Z :=
  match l with
  | [] => [x]
  | y :: l' => if cmp x y <=? 0 then x :: l else y :: qsort_insert cmp x l'
  end.

Definition qsort (cmp : Z → Z → Z) (l : list Z) : list Z :=
  foldr (qsort_insert cmp) [] l.

(** ** 4. Heuristic analysis engine *)

Definition sample_size_of (n : Z) : Z :=
  if n <? ANALYSIS_SAMPLE_SIZE then n else ANALYSIS_SAMPLE_SIZE.

(** The scan of heuristic 1; the state is [(has_negative, ascending_pairs)]. *)
Definition analyze_scan (arr : list Z) (sample_size : Z)
    : option (bool * Z) :=
  for_lt 0 (wrap (sample_size - 1))
    (λ i '(has_negative, ascending_pairs),
       ai ← load arr i;
       let has_negative := if ai <? 0 then true else has_negative in
       ai1 ← load arr (i + 1);
       Some (has_negative,
             if ai <=? ai1 then ascending_pairs + 1 else ascending_pairs))
    (false, 0).

(** [(double)ascending_pairs / (sample_size - 1) >= NEARLY_SORTED_THRESHOLD] *)
Definition nearly_sorted (ascending_pairs sample_size : Z) : bool :=
  double_ge
    (PrimFloat.div (double_of_int ascending_pairs)
                   (double_of_int (wrap (sample_size - 1))))
    NEARLY_SORTED_THRESHOLD.

(** Heuristic 3: the number of distinct values of the sorted sample copy. *)
Definition count_unique (sample_copy : list Z) (sample_size : Z) : option Z :=
  for_lt 1 sample_size
    (λ i unique_count,
       a ← load sample_copy i;
       b ← load sample_copy (i - 1);
       Some (if a =? b then unique_count else unique_count + 1))
    1.

Definition low_cardinality (unique_count sample_size : Z) : bool :=
  double_le
    (PrimFloat.div (double_of_int unique_count) (double_of_int sample_size))
    LOW_CARDINALITY_THRESHOLD.

Definition analyzeData (arr : list Z) (n : Z) : option SortStrategy :=
  let sample_size := sample_size_of n in
  '(has_negative, ascending_pairs) ← analyze_scan arr sample_size;
  if nearly_sorted ascending_pairs sample_size then Some STRATEGY_MERGESORT
  else if negb has_negative then Some STRATEGY_RADIXSORT
  else
    let sample_copy := qsort compareInts (take (Z.to_nat sample_size) arr) in
    unique_count ← count_unique sample_copy sample_size;
    if low_cardinality unique_count sample_size then Some STRATEGY_QUICKSORT
    else Some STRATEGY_QUICKSORT.

(** ** 5. Core sorting algorithms *)

(** *** Insertion sort *)

(** The inner loop [while (j >= left && arr[j] > key)]; state [(arr, j)]. *)
Definition insertion_shift (fuel : nat) (left key : Z)
    : list Z * Z → option (list Z * Z) :=
  while fuel
    (λ '(arr, j),
       if j >=? left then aj ← load arr j; Some (aj >? key) else Some false)
    (λ '(arr, j),
       aj ← load arr j;
       arr' ← store arr (j + 1) aj;
       Some (arr', j - 1)).

Definition insertionSort (arr : list Z) (left right : Z) : option (list Z) :=
  for_le (left + 1) right
    (λ i arr,
       key ← load arr i;
       '(arr', j) ← insertion_shift (Z.to_nat (i - left)) left key (arr, i - 1);
       store arr' (j + 1) key)
    arr.

(** *** Quicksort *)

Definition partition (arr : list Z) (low high : Z) : option (list Z * Z) :=
  pivot ← load arr high;
  '(arr', i) ← for_le low (high - 1)
    (λ j '(arr, i),
       aj ← load arr j;
       if aj <? pivot then
         arr' ← swap arr (i + 1) j; Some (arr', i + 1)
       else Some (arr, i))
    (arr, low - 1);
  arr'' ← swap arr' (i + 1) high;
  Some (arr'', i + 1).

Fixpoint quickSortRecursive (fuel : nat) (arr : list Z) (low high : Z)
    : option (list Z) :=
  if low <? high then
    if high - low + 1 <? INSERTION_SORT_THRESHOLD then
      insertionSort arr low high
    else
      match fuel with
      | O => None
      | S fuel' =>
          '(arr1, pi) ← partition arr low high;
          arr2 ← quickSortRecursive fuel' arr1 low (pi - 1);
          quickSortRecursive fuel' arr2 (pi + 1) high
      end
  else Some arr.

(** A partition step removes the pivot from both sides, so the depth of
    the recursion is below the size of the range. *)
Definition quickSort (arr : list Z) (low high : Z) : option (list Z) :=
  quickSortRecursive (Z.to_nat (high - low + 1)) arr low high.

(** *** Merge sort *)

Definition merge (arr : list Z) (l m r : Z) : option (list Z) :=
  let n1 := m - l + 1 in
  let n2 := r - m in
  if (n1 <? 0) || (n2 <? 0) then Some arr
  else
    L ← for_lt 0 n1 (λ i L, v ← load arr (l + i); store L i v)
           (replicate (Z.to_nat n1) 0);
    R ← for_lt 0 n2 (λ j R, v ← load arr (m + 1 + j); store R j v)
           (replicate (Z.to_nat n2) 0);
    '(arr, i, j, k) ← while (Z.to_nat (n1 + n2))
      (λ '(arr, i, j, k), Some ((i <? n1) && (j <? n2)))
      (λ '(arr, i, j, k),
         li ← load L i;
         rj ← load R j;
         if li <=? rj then arr' ← store arr k li; Some (arr', i + 1, j, k + 1)
         else arr' ← store arr k rj; Some (arr', i, j + 1, k + 1))
      (arr, 0, 0, l);
    '(arr, i, k) ← while (Z.to_nat n1)
      (λ '(arr, i, k), Some (i <? n1))
      (λ '(arr, i, k), li ← load L i; arr' ← store arr k li;
                       Some (arr', i + 1, k + 1))
      (arr, i, k);
    '(arr, j, k) ← while (Z.to_nat n2)
      (λ '(arr, j, k), Some (j <? n2))
      (λ '(arr, j, k), rj ← load R j; arr' ← store arr k rj;
                       Some (arr', j + 1, k + 1))
      (arr, j, k);
    Some arr.

Fixpoint mergeSortRecursive (fuel : nat) (arr : list Z) (l r : Z)
    : option (list Z) :=
  if l <? r then
    match fuel with
    | O => None
    | S fuel' =>
        let m := l + (r - l) ÷ 2 in
        arr1 ← mergeSortRecursive fuel' arr l m;
        arr2 ← mergeSortRecursive fuel' arr1 (m + 1) r;
        merge arr2 l m r
    end
  else Some arr.

(** Both halves of a range of at least two elements are shorter than the
    range, so its size bounds the depth of the recursion. *)
Definition mergeSort (arr : list Z) (l r : Z) : option (list Z) :=
  mergeSortRecursive (Z.to_nat (r - l + 1)) arr l r.

(** *** Radix sort *)

Definition getMax (arr : list Z) (n : Z) : option Z :=
  max0 ← load arr 0;
  for_lt 1 n (λ i max, ai ← load arr i; Some (if ai >? max then ai else max))
    max0.

(** [(v / exp) % 10] *)
Definition digit (exp v : Z) : option Z :=
  q ← int_div v exp; Some (Z.rem q 10).

Definition countingSortForRadix (arr : list Z) (n exp : Z)
    : option (list Z) :=
  if n <? 0 then Some arr
  else
    let output := replicate (Z.to_nat n) 0 in
    let count := replicate 10 0 in
    count ← for_lt 0 n
      (λ i count,
         ai ← load arr i; d ← digit exp ai;
         c ← load count d; store count d (c + 1))
      count;
    count ← for_lt 1 10
      (λ i count,
         c ← load count i; p ← load count (i - 1); store count i (c + p))
      count;
    '(output, count) ← for_down (n - 1) 0
      (λ i '(output, count),
         ai ← load arr i; d ← digit exp ai;
         c ← load count d;
         output' ← store output (c - 1) ai;
         count' ← store count d (c - 1);
         Some (output', count'))
      (output, count);
    for_lt 0 n (λ i arr, v ← load output i; store arr i v) arr.

(** The number of iterations given to the pass loop of [radixSort]:
    [10 ^ 32] is a multiple of [2 ^ 32], so after 32 steps [exp] would be
    [0] and the loop test itself would divide by zero. *)
Definition RADIX_FUEL : nat := 32.

(** [radixSort], with the [exp] of every counting pass logged in call
    order next to the array (the log is a ghost of the embedding). *)
Definition radixSort_run (arr : list Z) (n : Z)
    : option (list Z * list Z) :=
  m ← getMax arr n;
  '(arr', _, passes) ← while RADIX_FUEL
    (λ '(arr, exp, passes), q ← int_div m exp; Some (q >? 0))
    (λ '(arr, exp, passes),
       arr' ← countingSortForRadix arr n exp;
       Some (arr', wrap (exp * 10), passes ++ [exp]))
    (arr, 1, []);
  Some (arr', passes).

Definition radixSort (arr : list Z) (n : Z) : option (list Z) :=
  fst <$> radixSort_run arr n.

(** ** 3. The main adaptive hybrid sort function *)

Definition adaptiveHybridSort (arr : list Z) (n : Z) : option (list Z) :=
  if n <=? 1 then Some arr
  else if n <? INSERTION_SORT_THRESHOLD then insertionSort arr 0 (n - 1)
  else
    strategy ← analyzeData arr n;
    match strategy with
    | STRATEGY_MERGESORT => mergeSort arr 0 (n - 1)
    | STRATEGY_RADIXSORT => radixSort arr n
    | STRATEGY_QUICKSORT => quickSort arr 0 (n - 1)
    end.

(** ** 7. The arrays of the demonstration *)

Definition nearly_sorted_demo : list Z := [1; 2; 3; 10; 5; 6; 7; 8; 9; 4; 11; 12].
Definition positive_ints_demo : list Z := [170; 45; 75; 90; 802; 24; 2; 66].
Definition random_data_demo : list Z := [9; -3; 5; 2; 6; 8; -6; 1; 3; 4; 15; 0; -10].
Definition small_array_demo : list Z := [5; 1; 4; 2; 8].


(** * Properties *)

(** ** Arrays: reads and writes *)

Lemma load_Some (arr : list Z) (i v : Z) :
  load arr i = Some v ↔ 0 ≤ i ∧ arr !! Z.to_nat i = Some v.
Proof.
  unfold load. destruct (Z.leb_spec 0 i); split;
    [tauto|tauto|discriminate|intros []; lia].
Qed.

Lemma load_lookup (arr : list Z) (i : nat) :
  load arr (Z.of_nat i) = arr !! i.
Proof.
  unfold load. destruct (Z.leb_spec 0 (Z.of_nat i)); [|lia].
  by rewrite Nat2Z.id.
Qed.

Lemma load_in_range (arr : list Z) (i : Z) :
  0 ≤ i < Z.of_nat (length arr) → ∃ v, load arr i = Some v.
Proof.
  intros Hi. destruct (lookup_lt_is_Some_2 arr (Z.to_nat i)) as [v Hv]; [lia|].
  exists v. apply load_Some. split; [lia|done].
Qed.

Lemma store_Some (arr arr' : list Z) (i v : Z) :
  store arr i v = Some arr' ↔
  0 ≤ i < Z.of_nat (length arr) ∧ arr' = <[Z.to_nat i := v]> arr.
Proof.
  unfold store.
  destruct (Z.leb_spec 0 i); destruct (Z.ltb_spec i (Z.of_nat (length arr)));
    simpl; split; intros H1; try (destruct H1; lia); try discriminate.
  - inversion H1. split; [lia|done].
  - destruct H1 as [_ ->]. done.
Qed.

Lemma store_in_range (arr : list Z) (i v : Z) :
  0 ≤ i < Z.of_nat (length arr) →
  store arr i v = Some (<[Z.to_nat i := v]> arr).
Proof. intros. by apply store_Some. Qed.

(** ** Loops: invariant rules *)

Section LoopRules.
Context {St : Type}.
Implicit Types (body : Z → St → option St) (s : St).

(** An invariant indexed by the number of iterations done. *)
Lemma iterate_inv (P : nat → St → Prop) k i step body s :
  P O s →
  (∀ (t : nat) s, (t < k)%nat → P t s →
     ∃ s', body (i + Z.of_nat t * step) s = Some s' ∧ P (S t) s') →
  ∃ s', iterate k i step body s = Some s' ∧ P k s'.
Proof.
  revert P i s. induction k as [|k IH]; intros P i s H0 Hstep; simpl.
  - eauto.
  - destruct (Hstep O s) as (s1 & Hb & H1); [lia|done|].
    replace (i + Z.of_nat 0 * step) with i in Hb by lia.
    rewrite Hb. simpl.
    apply (IH (λ t, P (S t))); [done|].
    intros t s2 Ht Hs2. destruct (Hstep (S t) s2) as (s3 & Hb3 & H3); [lia|done|].
    exists s3. split; [|done]. rewrite <- Hb3. f_equal. lia.
Qed.

Lemma for_lt_inv (P : Z → St → Prop) lo hi body s :
  lo ≤ hi → P lo s →
  (∀ j s, lo ≤ j < hi → P j s → ∃ s', body j s = Some s' ∧ P (j + 1) s') →
  ∃ s', for_lt lo hi body s = Some s' ∧ P hi s'.
Proof.
  intros Hle H0 Hstep. unfold for_lt.
  destruct (iterate_inv (λ t, P (lo + Z.of_nat t)) (Z.to_nat (hi - lo))
              lo 1 body s) as (s' & Hs' & HP).
  - by replace (lo + Z.of_nat 0) with lo by lia.
  - intros t s1 Ht HP. destruct (Hstep (lo + Z.of_nat t) s1) as (s2 & ? & ?);
      [lia|done|].
    exists s2. split; [by replace (Z.of_nat t * 1) with (Z.of_nat t) by lia|].
    by replace (lo + Z.of_nat (S t)) with (lo + Z.of_nat t + 1) by lia.
  - exists s'. split; [done|].
    by replace (lo + Z.of_nat (Z.to_nat (hi - lo))) with hi in HP by lia.
Qed.

Lemma for_lt_empty lo hi body s : hi ≤ lo → for_lt lo hi body s = Some s.
Proof.
  intros. unfold for_lt. by replace (Z.to_nat (hi - lo)) with O by lia.
Qed.

Lemma for_le_for_lt lo hi body s :
  for_le lo hi body s = for_lt lo (hi + 1) body s.
Proof. unfold for_le, for_lt. do 2 f_equal. lia. Qed.

Lemma for_down_inv (P : Z → St → Prop) hi lo body s :
  lo - 1 ≤ hi → P hi s →
  (∀ j s, lo ≤ j ≤ hi → P j s → ∃ s', body j s = Some s' ∧ P (j - 1) s') →
  ∃ s', for_down hi lo body s = Some s' ∧ P (lo - 1) s'.
Proof.
  intros Hle H0 Hstep. unfold for_down.
  destruct (iterate_inv (λ t, P (hi - Z.of_nat t)) (Z.to_nat (hi - lo + 1))
              hi (-1) body s) as (s' & Hs' & HP).
  - by replace (hi - Z.of_nat 0) with hi by lia.
  - intros t s1 Ht HP. destruct (Hstep (hi - Z.of_nat t) s1) as (s2 & ? & ?);
      [lia|done|].
    exists s2. split.
    + by replace (hi + Z.of_nat t * -1) with (hi - Z.of_nat t) by lia.
    + by replace (hi - Z.of_nat (S t)) with (hi - Z.of_nat t - 1) by lia.
  - exists s'. split; [done|].
    by replace (hi - Z.of_nat (Z.to_nat (hi - lo + 1))) with (lo - 1) in HP by lia.
Qed.

(** Two bodies that agree on the counter values of the loop. *)
Lemma iterate_ext k i step body1 body2 s :
  (∀ (t : nat) s, (t < k)%nat →
     body1 (i + Z.of_nat t * step) s = body2 (i + Z.of_nat t * step) s) →
  iterate k i step body1 s = iterate k i step body2 s.
Proof.
  revert i s. induction k as [|k IH]; intros i s Hext; simpl; [done|].
  specialize (Hext O s ltac:(lia)) as H0.
  replace (i + Z.of_nat 0 * step) with i in H0 by lia. rewrite H0.
  destruct (body2 i s) as [s1|]; simpl; [|done].
  apply IH. intros t s2 Ht.
  replace (i + step + Z.of_nat t * step) with (i + Z.of_nat (S t) * step) by lia.
  apply Hext. lia.
Qed.

(** Total correctness of a [while] loop: an invariant [P] and a variant
    [mu] that the fuel covers. *)
Lemma while_inv (P : St → Prop) (mu : St → nat) fuel
    (cond : St → option bool) (body : St → option St) s :
  P s → (mu s ≤ fuel)%nat →
  (∀ s, P s → ∃ c, cond s = Some c ∧
     (c = true → ∃ s', body s = Some s' ∧ P s' ∧ (mu s' < mu s)%nat)) →
  ∃ s', while fuel cond body s = Some s' ∧ P s' ∧ cond s' = Some false.
Proof.
  intros HP Hmu Hstep. revert s HP Hmu.
  induction fuel as [|fuel IH]; intros s HP Hmu;
    destruct (Hstep s HP) as (c & Hc & Hb); simpl; rewrite Hc; simpl;
    destruct c; eauto.
  - destruct Hb as (s' & _ & _ & ?); [done|lia].
  - destruct Hb as (s' & Hs' & HP' & Hlt); [done|]. rewrite Hs'. simpl.
    apply IH; [done|lia].
Qed.
End LoopRules.

(** ** The frame of the in-place backends *)

(** [b] has the length of [a] and the elements of [a] at every index
    outside [lo .. hi]. *)
Definition same_outside (lo hi : Z) (a b : list Z) : Prop :=
  length b = length a ∧ ∀ i : Z, i < lo ∨ hi < i → load b i = load a i.

Lemma same_outside_refl lo hi a : same_outside lo hi a a.
Proof. by split. Qed.

Lemma same_outside_trans lo hi a b c :
  same_outside lo hi a b → same_outside lo hi b c → same_outside lo hi a c.
Proof.
  intros [Hl1 H1] [Hl2 H2]. split; [congruence|].
  intros i Hi. rewrite H2, H1; done.
Qed.

Lemma same_outside_mono lo hi lo' hi' a b :
  lo' ≤ lo → hi ≤ hi' → same_outside lo hi a b → same_outside lo' hi' a b.
Proof. intros ? ? [Hl H]. split; [done|]. intros i Hi. apply H. lia. Qed.

Lemma same_outside_store lo hi a b i v :
  lo ≤ i ≤ hi → store a i v = Some b → same_outside lo hi a b.
Proof.
  intros Hi [Hr ->]%store_Some. split; [by rewrite length_insert|].
  intros j Hj. unfold load. destruct (0 <=? j) eqn:E; [|done].
  apply list_lookup_insert_ne. apply Z.leb_le in E. lia.
Qed.

Lemma same_outside_store_r lo hi a0 a b i v :
  lo ≤ i ≤ hi → same_outside lo hi a0 a → store a i v = Some b →
  same_outside lo hi a0 b.
Proof. intros. eapply same_outside_trans; [done|]. by eapply same_outside_store. Qed.

Lemma same_outside_length lo hi a b :
  same_outside lo hi a b → length b = length a.
Proof. by intros []. Qed.

Lemma swap_frame lo hi a0 a i j :
  lo ≤ i ≤ hi → lo ≤ j ≤ hi → 0 ≤ lo → hi < Z.of_nat (length a0) →
  same_outside lo hi a0 a →
  ∃ b, swap a i j = Some b ∧ same_outside lo hi a0 b.
Proof.
  intros Hi Hj Hlo Hhi Ha. pose proof (same_outside_length _ _ _ _ Ha) as Hl.
  unfold swap.
  destruct (load_in_range a i) as [t ->]; [lia|].
  destruct (load_in_range a j) as [vb ->]; [lia|]. simpl.
  rewrite store_in_range by lia. simpl.
  rewrite store_in_range by (rewrite length_insert; lia).
  eexists. split; [done|].
  eapply same_outside_store_r; [exact Hj| |apply store_in_range; rewrite length_insert; lia].
  eapply same_outside_store_r; [exact Hi|done|apply store_in_range; lia].
Qed.

(** *** Insertion sort *)

Lemma insertion_shift_frame arr0 left right i key a :
  0 ≤ left → left < i ≤ right → right < Z.of_nat (length arr0) →
  same_outside left right arr0 a →
  ∃ a' j, insertion_shift (Z.to_nat (i - left)) left key (a, i - 1) = Some (a', j)
          ∧ same_outside left right arr0 a' ∧ left - 1 ≤ j ≤ i - 1.
Proof.
  intros Hl Hi Hr Ha. unfold insertion_shift.
  edestruct (while_inv
    (λ '(a', j), same_outside left right arr0 a' ∧ left - 1 ≤ j ≤ i - 1)
    (λ '(_, j), Z.to_nat (j - left + 1))) as ([a' j] & Hw & HP & _);
    [| |intros [a1 j1] [Ha1 Hj1]|].
  4: { exists a', j. split; [exact Hw|exact HP]. }
  - simpl. split; [done|lia].
  - simpl. lia.
  - pose proof (same_outside_length _ _ _ _ Ha1) as Hlen.
    simpl. destruct (Z.geb_spec j1 left) as [Hge|Hlt]; [|eexists; split; [done|done]].
    destruct (load_in_range a1 j1) as [aj Haj]; [lia|]. rewrite Haj. simpl.
    eexists. split; [done|]. intros _.
    rewrite store_in_range by lia. simpl. eexists. split; [done|].
    split; [|lia]. split; [|lia].
    eapply same_outside_store_r; [|done|apply store_in_range; lia]. lia.
Qed.

Lemma insertionSort_frame (arr : list Z) (left right : Z) :
  (left < right → 0 ≤ left ∧ right < Z.of_nat (length arr)) →
  ∃ arr', insertionSort arr left right = Some arr'
          ∧ same_outside left right arr arr'.
Proof.
  intros Hb. unfold insertionSort. rewrite for_le_for_lt.
  destruct (Z.lt_ge_cases left right) as [Hlt|Hge].
  2: { rewrite for_lt_empty by lia. eauto using same_outside_refl. }
  destruct (Hb Hlt) as [Hl Hr].
  apply (for_lt_inv (λ _ a, same_outside left right arr a)); [lia|apply same_outside_refl|].
  intros i a Hi Ha. pose proof (same_outside_length _ _ _ _ Ha) as Hlen.
  destruct (load_in_range a i) as [key ->]; [lia|]. simpl.
  destruct (insertion_shift_frame arr left right i key a) as (a' & j & -> & Ha' & Hj);
    [lia|lia|lia|done|]. simpl.
  pose proof (same_outside_length _ _ _ _ Ha') as Hlen'.
  rewrite store_in_range by lia. eexists. split; [done|].
  eapply same_outside_store_r; [|done|apply store_in_range; lia]. lia.
Qed.

(** [use_for_lt P] runs the loop at the head of the computation of the
    goal under the invariant [P]; [use_while P mu] does the same for a
    [while] loop with variant [mu]. *)
Ltac head_call e :=
  lazymatch e with
  | mbind _ ?m => head_call m
  | fmap _ ?m => head_call m
  | _ => e
  end.

Ltac goal_head_call :=
  lazymatch goal with
  | |- ex (λ _, ?e = _ ∧ _) => head_call e
  | |- ex (λ _, ex (λ _, ?e = _ ∧ _)) => head_call e
  | |- ex (λ _, ?e = _) => head_call e
  | |- ?e = _ => head_call e
  end.

Ltac use_for_lt P :=
  let h := goal_head_call in
  lazymatch h with
  | for_lt ?lo ?hi ?body ?s =>
      let s' := fresh "s" in let Hrun := fresh "Hrun" in
      let HP := fresh "HP" in
      destruct (for_lt_inv P lo hi body s) as (s' & Hrun & HP);
      [ | cbv beta | cbv beta | rewrite Hrun; clear Hrun; simpl ]
  end.

Ltac use_while P mu :=
  let h := goal_head_call in
  lazymatch h with
  | while ?fuel ?cond ?body ?s =>
      let s' := fresh "s" in let Hrun := fresh "Hrun" in
      let HP := fresh "HP" in let Hc := fresh "Hexit" in
      destruct (while_inv P mu fuel cond body s) as (s' & Hrun & HP & Hc);
      [ cbv beta | cbv beta | cbv beta | rewrite Hrun; clear Hrun; simpl ]
  end.

(** *** Quicksort *)

Lemma partition_frame a low high :
  0 ≤ low → low < high → high < Z.of_nat (length a) →
  ∃ a' pi, partition a low high = Some (a', pi)
           ∧ same_outside low high a a' ∧ low ≤ pi ≤ high.
Proof.
  intros Hl Hlh Hh. unfold partition.
  destruct (load_in_range a high) as [pivot ->]; [lia|]. simpl.
  rewrite for_le_for_lt.
  use_for_lt (λ j '(a1, i), same_outside low high a a1 ∧ low - 1 ≤ i ≤ j - 1).
  - lia.
  - split; [apply same_outside_refl|lia].
  - intros j [a1 i] Hj [Ha1 Hi].
    pose proof (same_outside_length _ _ _ _ Ha1) as Hlen.
    destruct (load_in_range a1 j) as [aj ->]; [lia|]. simpl.
    destruct (aj <? pivot).
    + destruct (swap_frame low high a a1 (i + 1) j) as (a2 & -> & Ha2);
        [lia|lia|lia|lia|done|]. simpl.
      eexists. split; [done|]. split; [done|lia].
    + eexists. split; [done|]. split; [done|lia].
  - destruct s as [a1 i]. destruct HP as [Ha1 Hi].
    destruct (swap_frame low high a a1 (i + 1) high) as (a2 & -> & Ha2);
      [lia|lia|lia|lia|done|]. simpl.
    exists a2, (i + 1). split; [done|]. split; [done|lia].
Qed.

Lemma quickSortRecursive_frame fuel : ∀ arr low high,
  high - low + 1 ≤ Z.of_nat fuel →
  (low < high → 0 ≤ low ∧ high < Z.of_nat (length arr)) →
  ∃ arr', quickSortRecursive fuel arr low high = Some arr'
          ∧ same_outside low high arr arr'.
Proof.
  induction fuel as [|fuel IH]; intros arr low high Hfuel Hb.
  - simpl. destruct (Z.ltb_spec low high); [lia|].
    eauto using same_outside_refl.
  - simpl. destruct (Z.ltb_spec low high) as [Hlt|];
      [|eauto using same_outside_refl].
    destruct (Hb Hlt) as [Hl Hh].
    case (high - low + 1 <? INSERTION_SORT_THRESHOLD).
    { by apply insertionSort_frame. }
    destruct (partition_frame arr low high) as (a1 & pi & -> & Ha1 & Hpi);
      [lia..|]. simpl.
    pose proof (same_outside_length _ _ _ _ Ha1) as Hlen1.
    destruct (IH a1 low (pi - 1)) as (a2 & -> & Ha2); [lia|lia|]. simpl.
    pose proof (same_outside_length _ _ _ _ Ha2) as Hlen2.
    destruct (IH a2 (pi + 1) high) as (a3 & -> & Ha3); [lia|lia|].
    exists a3. split; [done|].
    eapply same_outside_trans; [exact Ha1|].
    eapply same_outside_trans;
      (eapply same_outside_mono; [| |eassumption]; lia).
Qed.

Lemma quickSort_frame (arr : list Z) (low high : Z) :
  (low < high → 0 ≤ low ∧ high < Z.of_nat (length arr)) →
  ∃ arr', quickSort arr low high = Some arr' ∧ same_outside low high arr arr'.
Proof. intros. apply quickSortRecursive_frame; [lia|done]. Qed.

(** *** Merge sort *)

Lemma merge_frame a l m r :
  0 ≤ l → l ≤ m → m < r → r < Z.of_nat (length a) →
  ∃ a', merge a l m r = Some a' ∧ same_outside l r a a'.
Proof.
  intros Hl Hlm Hmr Hr. unfold merge.
  set (n1 := m - l + 1). set (n2 := r - m).
  destruct (Z.ltb_spec n1 0); [lia|]. destruct (Z.ltb_spec n2 0); [lia|]. simpl.
  use_for_lt (λ (_ : Z) (L : list Z), length L = Z.to_nat n1).
  { lia. } { by rewrite length_replicate. }
  { intros i L Hi HL. destruct (load_in_range a (l + i)) as [v ->]; [lia|]. simpl.
    rewrite store_in_range by lia. eexists. split; [done|].
    by rewrite length_insert. }
  rename s into L, HP into HL.
  use_for_lt (λ (_ : Z) (R : list Z), length R = Z.to_nat n2).
  { lia. } { by rewrite length_replicate. }
  { intros j R Hj HR. destruct (load_in_range a (m + 1 + j)) as [v ->]; [lia|]. simpl.
    rewrite store_in_range by lia. eexists. split; [done|].
    by rewrite length_insert. }
  rename s into R, HP into HR.
  use_while (λ '(a1, i, j, k), same_outside l r a a1 ∧ 0 ≤ i ≤ n1 ∧ 0 ≤ j ≤ n2
                               ∧ k = l + i + j)
            (λ '((_, i, j, _) : list Z * Z * Z * Z), Z.to_nat (n1 + n2 - i - j)).
  { split; [apply same_outside_refl|lia]. } { simpl. lia. }
  { intros [[[a1 i] j] k] (Ha1 & Hi & Hj & ->). eexists. split; [done|].
    intros [Hi' Hj']%andb_true_iff. apply Z.ltb_lt in Hi', Hj'.
    pose proof (same_outside_length _ _ _ _ Ha1) as Hlen.
    destruct (load_in_range L i) as [li ->]; [lia|].
    destruct (load_in_range R j) as [rj ->]; [lia|]. simpl.
    destruct (li <=? rj); rewrite store_in_range by lia; simpl;
      (eexists; split; [done|]); (split; [|lia]);
      (split; [|lia]);
      (eapply same_outside_store_r; [|done|apply store_in_range; lia]); lia. }
  destruct s as [[[a1 i] j] k]. destruct HP as (Ha1 & Hi & Hj & ->). clear Hexit.
  use_while (λ '(a2, i', k), same_outside l r a a2 ∧ 0 ≤ i' ≤ n1 ∧ k = l + i' + j)
            (λ '((_, i', _) : list Z * Z * Z), Z.to_nat (n1 - i')).
  { split; [done|lia]. } { simpl. lia. }
  { intros [[a2 i'] k] (Ha2 & Hi1 & ->). eexists. split; [done|].
    intros Hi'%Z.ltb_lt.
    pose proof (same_outside_length _ _ _ _ Ha2) as Hlen.
    destruct (load_in_range L i') as [li ->]; [lia|]. simpl.
    rewrite store_in_range by lia. simpl. eexists. split; [done|].
    split; [|lia]. split; [|lia].
    eapply same_outside_store_r; [|done|apply store_in_range; lia]. lia. }
  destruct s as [[a2 i'] k]. destruct HP as (Ha2 & Hi1 & ->).
  injection Hexit as Hexit. apply Z.ltb_ge in Hexit.
  use_while (λ '(a3, j', k), same_outside l r a a3 ∧ 0 ≤ j' ≤ n2 ∧ k = l + n1 + j')
            (λ '((_, j', _) : list Z * Z * Z), Z.to_nat (n2 - j')).
  { split; [done|lia]. } { simpl. lia. }
  { intros [[a3 j'] k] (Ha3 & Hj1 & ->). eexists. split; [done|].
    intros Hj'%Z.ltb_lt.
    pose proof (same_outside_length _ _ _ _ Ha3) as Hlen.
    destruct (load_in_range R j') as [rj ->]; [lia|]. simpl.
    rewrite store_in_range by lia. simpl. eexists. split; [done|].
    split; [|lia]. split; [|lia].
    eapply same_outside_store_r; [|done|apply store_in_range; lia]. lia. }
  destruct s as [[a3 j'] k]. destruct HP as (Ha3 & _).
  by exists a3.
Qed.

Lemma mergeSortRecursive_frame fuel : ∀ arr l r,
  r - l + 1 ≤ Z.of_nat fuel →
  (l < r → 0 ≤ l ∧ r < Z.of_nat (length arr)) →
  ∃ arr', mergeSortRecursive fuel arr l r = Some arr'
          ∧ same_outside l r arr arr'.
Proof.
  induction fuel as [|fuel IH]; intros arr l r Hfuel Hb.
  - simpl. destruct (Z.ltb_spec l r); [lia|].
    eauto using same_outside_refl.
  - simpl. destruct (Z.ltb_spec l r) as [Hlt|];
      [|eauto using same_outside_refl].
    destruct (Hb Hlt) as [Hl Hr].
    rewrite Z.quot_div_nonneg by lia.
    set (m := l + (r - l) / 2).
    assert (l ≤ m < r) as Hm.
    { pose proof (Z.div_pos (r - l) 2). pose proof (Z.div_lt (r - l) 2).
      unfold m. lia. }
    destruct (IH arr l m) as (a1 & -> & Ha1); [lia|lia|]. simpl.
    pose proof (same_outside_length _ _ _ _ Ha1) as Hlen1.
    destruct (IH a1 (m + 1) r) as (a2 & -> & Ha2); [lia|lia|]. simpl.
    pose proof (same_outside_length _ _ _ _ Ha2) as Hlen2.
    destruct (merge_frame a2 l m r) as (a3 & -> & Ha3); [lia..|].
    exists a3. split; [done|].
    eapply same_outside_trans; [|exact Ha3].
    eapply same_outside_trans;
      (eapply same_outside_mono; [| |eassumption]; lia).
Qed.

Lemma mergeSort_frame (arr : list Z) (l r : Z) :
  (l < r → 0 ≤ l ∧ r < Z.of_nat (length arr)) →
  ∃ arr', mergeSort arr l r = Some arr' ∧ same_outside l r arr arr'.
Proof. intros. apply mergeSortRecursive_frame; [lia|done]. Qed.

(** C10.  Called on a range [left .. right] that lies inside the array
    (an empty range, [right <= left], may lie anywhere), each of
    [insertionSort], [quickSort] and [mergeSort] returns, the array keeps
    its length, and every element at an index outside [left .. right] is
    the one the input array had there. *)
Theorem backends_frame (arr : list Z) (left right : Z) :
  (left < right → 0 ≤ left ∧ right < Z.of_nat (length arr)) →
  (∃ arr', insertionSort arr left right = Some arr'
           ∧ same_outside left right arr arr')
  ∧ (∃ arr', quickSort arr left right = Some arr'
             ∧ same_outside left right arr arr')
  ∧ (∃ arr', mergeSort arr left right = Some arr'
             ∧ same_outside left right arr arr').
Proof.
  intros Hb. split; [|split].
  - by apply insertionSort_frame.
  - by apply quickSort_frame.
  - by apply mergeSort_frame.
Qed.

Lemma backends_frame_witness :
  let arr := [50; 9; 3; 7; 1; 8; 40] in
  (1 < 4 → 0 ≤ 1 ∧ 4 < Z.of_nat (length arr))
  ∧ (∃ arr', insertionSort arr 1 4 = Some arr' ∧ same_outside 1 4 arr arr')
  ∧ (∃ arr', quickSort arr 1 4 = Some arr' ∧ same_outside 1 4 arr arr')
  ∧ (∃ arr', mergeSort arr 1 4 = Some arr' ∧ same_outside 1 4 arr arr').
Proof.
  intros arr.
  assert (1 < 4 → 0 ≤ 1 ∧ 4 < Z.of_nat (length arr)) as H by (simpl; lia).
  split; [exact H|]. exact (backends_frame arr 1 4 H).
Defined.

(** ** The analysis engine *)

(** The sample of the analysis: the first [min(n, ANALYSIS_SAMPLE_SIZE)]
    elements of the array. *)
Definition sample (arr : list Z) (n : Z) : list Z :=
  take (Z.to_nat (sample_size_of n)) arr.

(** The number of adjacent pairs [a, b] of a list with [a <= b]. *)
Fixpoint ascending_pairs_of (l : list Z) : Z :=
  match l with
  | a :: (b :: _) as t => (if a <=? b then 1 else 0) + ascending_pairs_of t
  | _ => 0
  end.

Definition has_negative_of (l : list Z) : bool := existsb (λ v, v <? 0) l.

Lemma wrap_id z : INT_MIN ≤ z ≤ INT_MAX → wrap z = z.
Proof.
  unfold INT_MIN, INT_MAX, wrap. intros. rewrite Z.mod_small; lia.
Qed.

Lemma ascending_pairs_of_snoc l a b :
  ascending_pairs_of (l ++ [a; b])
  = ascending_pairs_of (l ++ [a]) + (if a <=? b then 1 else 0).
Proof.
  induction l as [|x [|y l] IH]; simpl in *; try lia.
Qed.

Lemma ascending_pairs_of_bounds l :
  0 ≤ ascending_pairs_of l ≤ Z.of_nat (length l) - 1 ∨ l = [].
Proof.
  induction l as [|x [|y l] IH]; [by right|left; simpl; lia|].
  left. destruct IH as [IH|]; [|done].
  change (ascending_pairs_of (x :: y :: l))
    with ((if x <=? y then 1 else 0) + ascending_pairs_of (y :: l)).
  simpl length in *. destruct (x <=? y); lia.
Qed.

Lemma has_negative_of_snoc l a :
  has_negative_of (l ++ [a]) = (if a <? 0 then true else has_negative_of l).
Proof.
  unfold has_negative_of. rewrite existsb_app. simpl.
  destruct (a <? 0), (existsb _ l); done.
Qed.

(** The scan returns the negativity of the first [sample_size - 1]
    elements and the ascending pairs of the first [sample_size]. *)
Lemma analyze_scan_spec arr s :
  1 ≤ s ≤ INT_MAX → s ≤ Z.of_nat (length arr) →
  analyze_scan arr s
  = Some (has_negative_of (take (Z.to_nat (s - 1)) arr),
          ascending_pairs_of (take (Z.to_nat s) arr)).
Proof.
  intros Hs Hlen. unfold analyze_scan.
  rewrite wrap_id by (unfold INT_MIN, INT_MAX in *; lia).
  use_for_lt
    (λ j '(hn, ap), hn = has_negative_of (take (Z.to_nat j) arr)
                    ∧ ap = ascending_pairs_of (take (Z.to_nat (j + 1)) arr)).
  - lia.
  - simpl. by destruct arr.
  - intros j [hn ap] Hj [-> ->].
    destruct (load_in_range arr j) as [aj Haj]; [lia|].
    destruct (load_in_range arr (j + 1)) as [aj1 Haj1]; [lia|].
    rewrite Haj. simpl. rewrite Haj1. simpl. eexists. split; [done|].
    apply load_Some in Haj as [_ Haj]. apply load_Some in Haj1 as [_ Haj1].
    replace (Z.to_nat (j + 1)) with (S (Z.to_nat j)) in * by lia.
    replace (Z.to_nat (j + 1 + 1)) with (S (S (Z.to_nat j))) by lia.
    rewrite (take_S_r _ _ _ Haj1), (take_S_r _ _ _ Haj).
    rewrite has_negative_of_snoc. split; [done|].
    rewrite <- app_assoc. simpl. rewrite ascending_pairs_of_snoc.
    destruct (aj <=? aj1); lia.
  - destruct s0 as [hn ap]. destruct HP as [-> ->].
    by replace (s - 1 + 1) with s by lia.
Qed.

(** The [double] test of heuristic 1 decides [17 / 20 <= ap / (s - 1)]
    exactly, for every sample size up to [ANALYSIS_SAMPLE_SIZE]. *)
Definition nearly_sorted_table : bool :=
  forallb (λ s,
    forallb (λ ap, Bool.eqb (nearly_sorted ap s) (17 * (s - 1) <=? 20 * ap))
            (seqZ 0 100))
    (seqZ 2 99).

Lemma forallb_seqZ (f : Z → bool) (m n x : Z) :
  forallb f (seqZ m n) = true → m ≤ x < m + n → f x = true.
Proof.
  intros Hf Hx. rewrite forallb_forall in Hf. apply Hf.
  apply list_elem_of_In, elem_of_seqZ. lia.
Qed.

Lemma nearly_sorted_table_true : nearly_sorted_table = true.
Proof. vm_compute. reflexivity. Qed.

Lemma nearly_sorted_exact ap s :
  2 ≤ s ≤ 100 → 0 ≤ ap ≤ s - 1 →
  nearly_sorted ap s = (17 * (s - 1) <=? 20 * ap).
Proof.
  intros Hs Hap.
  assert (forallb (λ s,
    forallb (λ ap, Bool.eqb (nearly_sorted ap s) (17 * (s - 1) <=? 20 * ap))
            (seqZ 0 100))
    (seqZ 2 99) = true) as Ht by (vm_compute; reflexivity).
  pose proof (forallb_seqZ _ 2 99 s Ht) as H1.
  specialize (H1 ltac:(lia)). cbv beta in H1.
  pose proof (forallb_seqZ _ 0 100 ap H1) as H2.
  specialize (H2 ltac:(lia)). cbv beta in H2.
  apply Bool.eqb_prop in H2. exact H2.
Qed.

Lemma sample_size_of_le n : sample_size_of n ≤ 100.
Proof.
  unfold sample_size_of, ANALYSIS_SAMPLE_SIZE. destruct (Z.ltb_spec n 100); lia.
Qed.

(** C5.  For a sample of at least two elements that lies inside the array,
    if the number of its adjacent pairs with [sample[i] <= sample[i+1]],
    divided by [sample_len - 1], is at least [0.85], then [analyzeData]
    returns [STRATEGY_MERGESORT]; the signs and the cardinality of the
    sample are not looked at. *)
Theorem sortedness_heuristic_first (arr : list Z) (n : Z) :
  2 ≤ sample_size_of n →
  sample_size_of n ≤ Z.of_nat (length arr) →
  (0.85 <= ascending_pairs_of (sample arr n) # Z.to_pos (sample_size_of n - 1))%Q →
  analyzeData arr n = Some STRATEGY_MERGESORT.
Proof.
  intros Hs Hlen Hratio. unfold analyzeData.
  pose proof (sample_size_of_le n) as Hle.
  rewrite analyze_scan_spec by (unfold INT_MAX; lia). simpl.
  fold (sample arr n).
  destruct (ascending_pairs_of_bounds (sample arr n)) as [Hb|Hnil].
  2: { apply (f_equal length) in Hnil. unfold sample in Hnil.
       rewrite length_take in Hnil. simpl in Hnil. lia. }
  assert (length (sample arr n) = Z.to_nat (sample_size_of n)) as Hl.
  { unfold sample. rewrite length_take. lia. }
  rewrite nearly_sorted_exact by lia.
  unfold Qle in Hratio. simpl in Hratio. rewrite Z2Pos.id in Hratio by lia.
  destruct (Z.leb_spec (17 * (sample_size_of n - 1))
              (20 * ascending_pairs_of (sample arr n))); [done|lia].
Qed.

Lemma sortedness_heuristic_first_witness :
  let arr := [-7; -5; -5; -1] in
  (2 ≤ sample_size_of 4
   ∧ sample_size_of 4 ≤ Z.of_nat (length arr)
   ∧ (0.85 <= ascending_pairs_of (sample arr 4)
              # Z.to_pos (sample_size_of 4 - 1))%Q)
  ∧ analyzeData arr 4 = Some STRATEGY_MERGESORT.
Proof.
  intros arr.
  assert (2 ≤ sample_size_of 4) as H1 by (vm_compute; discriminate).
  assert (sample_size_of 4 ≤ Z.of_nat (length arr)) as H2
    by (vm_compute; discriminate).
  assert (0.85 <= ascending_pairs_of (sample arr 4)
                  # Z.to_pos (sample_size_of 4 - 1))%Q as H3
    by (vm_compute; discriminate).
  split; [by repeat split|].
  exact (sortedness_heuristic_first arr 4 H1 H2 H3).
Defined.

Lemma load_take arr k i :
  i < k → load (take (Z.to_nat k) arr) i = load arr i.
Proof.
  intros Hi. unfold load. destruct (Z.leb_spec 0 i); [|done].
  apply lookup_take_lt. lia.
Qed.

Lemma sample_size_of_bounds n :
  INT_MIN < n → INT_MIN < sample_size_of n ≤ 100.
Proof.
  unfold sample_size_of, ANALYSIS_SAMPLE_SIZE, INT_MIN.
  destruct (Z.ltb_spec n 100); lia.
Qed.

(** The analysis reads the array through its sample only. *)
Lemma analyzeData_sample arr n :
  INT_MIN < n → analyzeData arr n = analyzeData (sample arr n) n.
Proof.
  intros Hn. pose proof (sample_size_of_bounds n Hn) as Hs.
  unfold analyzeData, sample. set (s := sample_size_of n) in *.
  rewrite take_take, Nat.min_id.
  replace (analyze_scan (take (Z.to_nat s) arr) s) with (analyze_scan arr s);
    [done|].
  unfold analyze_scan, for_lt.
  rewrite wrap_id by (unfold INT_MIN, INT_MAX in *; lia).
  apply iterate_ext. intros t [hn ap] Ht.
  rewrite !load_take by lia. done.
Qed.

(** C8.  Two calls of [analyzeData] whose samples have the same size and
    the same contents return the same strategy, whatever the lengths and
    the remaining contents of the two arrays; the result is a function of
    its arguments, so no earlier call can influence it.  A size is an
    [int] above [INT_MIN], where [sample_size - 1] does not wrap. *)
Theorem analyzeData_deterministic (arr1 arr2 : list Z) (n1 n2 : Z) :
  INT_MIN < n1 → INT_MIN < n2 →
  sample_size_of n1 = sample_size_of n2 →
  sample arr1 n1 = sample arr2 n2 →
  analyzeData arr1 n1 = analyzeData arr2 n2.
Proof.
  intros Hn1 Hn2 Hsize Hsample.
  rewrite (analyzeData_sample arr1), (analyzeData_sample arr2) by done.
  rewrite Hsample. unfold analyzeData. by rewrite Hsize.
Qed.

Lemma analyzeData_deterministic_witness :
  let arr1 := seqZ 0 100 ++ [-3; 7] in
  let arr2 := seqZ 0 100 ++ [5; -9; 12; 0] in
  (INT_MIN < 102 ∧ INT_MIN < 104
   ∧ sample_size_of 102 = sample_size_of 104
   ∧ sample arr1 102 = sample arr2 104)
  ∧ analyzeData arr1 102 = analyzeData arr2 104.
Proof.
  intros arr1 arr2.
  assert (INT_MIN < 102) as H1 by reflexivity.
  assert (INT_MIN < 104) as H2 by reflexivity.
  assert (sample_size_of 102 = sample_size_of 104) as H3 by reflexivity.
  assert (sample arr1 102 = sample arr2 104) as H4 by reflexivity.
  split; [by repeat split|].
  exact (analyzeData_deterministic arr1 arr2 102 104 H1 H2 H3 H4).
Defined.

(** C9.  On a sample of one element the scan makes no iteration, the
    ratio [0.0 / 0.0] of heuristic 1 is a NaN, its comparison with the
    threshold is false, and [analyzeData] goes on to heuristic 2 (which
    answers, no element having been tested for its sign). *)
Theorem single_element_sample_falls_through (arr : list Z) :
  analyze_scan arr 1 = Some (false, 0)
  ∧ PrimFloat.is_nan (PrimFloat.div (double_of_int 0) (double_of_int (wrap (1 - 1)))) = true
  ∧ nearly_sorted 0 1 = false
  ∧ analyzeData arr 1 = Some STRATEGY_RADIXSORT.
Proof. repeat split; vm_compute; reflexivity. Qed.

(** C3.  [analyzeData] answers [STRATEGY_RADIXSORT] on a sample whose last
    element is negative: the scan stops one element short of the sample. *)
Theorem analyzeData_misses_last_sign :
  analyzeData [5; -1] 2 = Some STRATEGY_RADIXSORT
  ∧ sample [5; -1] 2 = [5; -1]
  ∧ has_negative_of (sample [5; -1] 2) = true.
Proof. repeat split; vm_compute; reflexivity. Qed.

(** X14.  What the sign test of heuristic 2 does establish: the elements of the
    sample before its last one are non-negative. *)
Lemma analyzeData_radix_signs arr n :
  1 ≤ sample_size_of n → sample_size_of n ≤ Z.of_nat (length arr) →
  analyzeData arr n = Some STRATEGY_RADIXSORT →
  Forall (λ v, 0 ≤ v) (take (Z.to_nat (sample_size_of n - 1)) arr).
Proof.
  intros Hs Hlen. unfold analyzeData.
  pose proof (sample_size_of_le n) as Hle.
  rewrite analyze_scan_spec by (unfold INT_MAX; lia). simpl.
  destruct (nearly_sorted _ _); [discriminate|].
  destruct (has_negative_of _) eqn:Hneg; simpl.
  - destruct (count_unique _ _); simpl; [|discriminate].
    destruct (low_cardinality _ _); discriminate.
  - intros _. apply Forall_forall. intros v Hv.
    destruct (Z.ltb_spec v 0) as [Hlt|]; [|done].
    assert (has_negative_of (take (Z.to_nat (sample_size_of n - 1)) arr) = true)
      as Habs; [|congruence].
    apply existsb_exists. exists v. split; [by apply list_elem_of_In|].
    by apply Z.ltb_lt.
Qed.

(** ** The dispatcher *)

(** The dispatcher as the specification words it, over any analysis
    engine: no-op up to one element, insertion sort over the full range
    below the threshold, and from the threshold on the backend that the
    engine's strategy names, over the full range. *)
Definition Dispatcher (analyze : list Z → Z → option SortStrategy)
    (arr : list Z) (n : Z) : option (list Z) :=
  if decide (n ≤ 1) then Some arr
  else if decide (n < INSERTION_SORT_THRESHOLD) then insertionSort arr 0 (n - 1)
  else
    analyze arr n ≫= λ strategy,
      match strategy with
      | STRATEGY_MERGESORT => mergeSort arr 0 (n - 1)
      | STRATEGY_RADIXSORT => radixSort arr n
      | STRATEGY_QUICKSORT => quickSort arr 0 (n - 1)
      end.

Lemma adaptiveHybridSort_Dispatcher arr n :
  adaptiveHybridSort arr n = Dispatcher analyzeData arr n.
Proof.
  unfold adaptiveHybridSort, Dispatcher.
  destruct (Z.leb_spec n 1); case_decide; try lia; [done|].
  destruct (Z.ltb_spec n INSERTION_SORT_THRESHOLD); case_decide; try lia; done.
Qed.

(** C4.  [adaptiveHybridSort] is the dispatcher run with [analyzeData].
    Up to one element it returns the array as it is; for
    [1 < n < INSERTION_SORT_THRESHOLD], so at [n = 31], it is
    [insertionSort] over [0 .. n - 1] whatever the engine would answer;
    from [n = INSERTION_SORT_THRESHOLD = 32] on it asks the engine and
    runs the backend of the returned strategy over the full range. *)
Theorem dispatcher_routes (arr : list Z) (n : Z) :
  adaptiveHybridSort arr n = Dispatcher analyzeData arr n
  ∧ (n ≤ 1 → ∀ engine, Dispatcher engine arr n = Some arr)
  ∧ (1 < n < INSERTION_SORT_THRESHOLD →
       ∀ engine, Dispatcher engine arr n = insertionSort arr 0 (n - 1))
  ∧ (INSERTION_SORT_THRESHOLD ≤ n →
       ∀ engine, Dispatcher engine arr n =
         engine arr n ≫= λ strategy,
           match strategy with
           | STRATEGY_MERGESORT => mergeSort arr 0 (n - 1)
           | STRATEGY_RADIXSORT => radixSort arr n
           | STRATEGY_QUICKSORT => quickSort arr 0 (n - 1)
           end).
Proof.
  split; [apply adaptiveHybridSort_Dispatcher|].
  unfold Dispatcher, INSERTION_SORT_THRESHOLD.
  repeat split; intros Hn engine; repeat case_decide; done || lia.
Qed.

Lemma dispatcher_routes_witness :
  let small := [7; 3; 9] in
  let big := seqZ 0 32 in
  (0 ≤ 1 → adaptiveHybridSort small 0 = Some small)
  ∧ (1 < 3 < INSERTION_SORT_THRESHOLD →
       adaptiveHybridSort small 3 = insertionSort small 0 (3 - 1))
  ∧ (INSERTION_SORT_THRESHOLD ≤ 32 →
       adaptiveHybridSort big 32 =
         analyzeData big 32 ≫= λ strategy,
           match strategy with
           | STRATEGY_MERGESORT => mergeSort big 0 (32 - 1)
           | STRATEGY_RADIXSORT => radixSort big 32
           | STRATEGY_QUICKSORT => quickSort big 0 (32 - 1)
           end).
Proof.
  intros small big.
  destruct (dispatcher_routes small 0) as (E0 & H0 & _ & _).
  destruct (dispatcher_routes small 3) as (E3 & _ & H3 & _).
  destruct (dispatcher_routes big 32) as (E32 & _ & _ & H32).
  split; [|split].
  - intros _. rewrite E0. apply H0. lia.
  - intros _. rewrite E3. apply H3. unfold INSERTION_SORT_THRESHOLD. lia.
  - intros _. rewrite E32. apply H32. unfold INSERTION_SORT_THRESHOLD. lia.
Defined.

(** ** Inputs on which the radix path meets a negative value *)

(** 32 elements: thirty-one non-negative ones that are far from sorted,
    then [-10].  The scan of [analyzeData] does not test the sign of the
    last sample element, so the array is sent to [radixSort]. *)
Definition descending_block : list Z := [9; 8; 7; 6; 5; 4; 3; 2; 1; 0].

Definition radix_input_minus_ten : list Z :=
  descending_block ++ descending_block ++ descending_block ++ [1; -10].

Definition radix_input_minus_one : list Z :=
  descending_block ++ descending_block ++ descending_block ++ [1; -1].

Definition radix_output_minus_ten : list Z :=
  [0; 0; 0; -10; 1; 1; 1; 1; 2; 2; 2; 3; 3; 3; 4; 4; 4; 5; 5; 5;
   6; 6; 6; 7; 7; 7; 8; 8; 8; 9; 9; 9].

(** C1.  On [radix_input_minus_ten], of length 32, the dispatcher takes
    the radix path and returns an array that is not in order: its
    elements 2 and 3 are [0] and [-10]. *)
Theorem adaptiveHybridSort_output_not_ordered :
  Z.of_nat (length radix_input_minus_ten) = 32
  ∧ analyzeData radix_input_minus_ten 32 = Some STRATEGY_RADIXSORT
  ∧ adaptiveHybridSort radix_input_minus_ten 32 = Some radix_output_minus_ten
  ∧ load radix_output_minus_ten 2 = Some 0
  ∧ load radix_output_minus_ten 3 = Some (-10)
  ∧ ¬ Sorted Z.le radix_output_minus_ten.
Proof.
  repeat split; try (vm_compute; reflexivity).
  intros Hs. apply Sorted_StronglySorted in Hs; [|intros x y z; apply Z.le_trans].
  unfold radix_output_minus_ten in Hs.
  do 2 apply StronglySorted_inv in Hs as [Hs _].
  apply StronglySorted_inv in Hs as [_ Hs].
  apply Forall_cons in Hs as [Hs _]. lia.
Qed.

(** C2.  On [radix_input_minus_one], of length 32, the dispatcher takes
    the radix path, and the first counting pass computes the digit
    [(-1 / 1) % 10 = -1] and indexes [count[-1]]: the call has undefined
    behaviour and produces no permutation of its input. *)
Theorem adaptiveHybridSort_radix_out_of_bounds :
  Z.of_nat (length radix_input_minus_one) = 32
  ∧ analyzeData radix_input_minus_one 32 = Some STRATEGY_RADIXSORT
  ∧ digit 1 (-1) = Some (-1)
  ∧ load (replicate 10 0) (-1) = None
  ∧ countingSortForRadix radix_input_minus_one 32 1 = None
  ∧ adaptiveHybridSort radix_input_minus_one 32 = None.
Proof. repeat split; vm_compute; reflexivity. Qed.

(** C7.  Sorting [radix_input_minus_ten] once gives
    [radix_output_minus_ten]; sorting that again takes the merge path
    (thirty of its thirty-one adjacent pairs ascend) and moves [-10] to
    the front: the second application changes the result of the first. *)
Theorem adaptiveHybridSort_not_idempotent :
  adaptiveHybridSort radix_input_minus_ten 32 = Some radix_output_minus_ten
  ∧ analyzeData radix_output_minus_ten 32 = Some STRATEGY_MERGESORT
  ∧ adaptiveHybridSort radix_output_minus_ten 32
    = Some (-10 :: 0 :: 0 :: 0 :: drop 4 radix_output_minus_ten)
  ∧ (adaptiveHybridSort radix_input_minus_ten 32
       ≫= λ once, adaptiveHybridSort once 32)
    ≠ adaptiveHybridSort radix_input_minus_ten 32.
Proof.
  repeat split; try (vm_compute; reflexivity).
  vm_compute. discriminate.
Qed.

(** ** Radix sort *)

(** *** A stable pass, as a function on lists *)

Section BucketSort.
Context (key : Z → Z).

(** The elements of [l] with key [d], in the order of [l]. *)
Definition bucket (d : Z) (l : list Z) : list Z := filter (λ v, key v = d) l.

(** The buckets of the keys [ds], one after the other: for increasing
    [ds], the stable sort of [l] by [key]. *)
Definition bucket_sort (ds : list Z) (l : list Z) : list Z :=
  ds ≫= λ d, bucket d l.

(** [x] comes before [y] by key, or by [R] among equal keys. *)
Definition by_key (R : relation Z) : relation Z :=
  λ x y, key x < key y ∨ (key x = key y ∧ R x y).

Lemma bucket_cons_eq x l : bucket (key x) (x :: l) = x :: bucket (key x) l.
Proof. unfold bucket. by rewrite filter_cons_True. Qed.

Lemma bucket_cons_ne d x l : key x ≠ d → bucket d (x :: l) = bucket d l.
Proof. intros. unfold bucket. by rewrite filter_cons_False. Qed.

Lemma bucket_app d l1 l2 : bucket d (l1 ++ l2) = bucket d l1 ++ bucket d l2.
Proof. apply filter_app. Qed.

Lemma bucket_sort_cons d ds l :
  bucket_sort (d :: ds) l = bucket d l ++ bucket_sort ds l.
Proof. done. Qed.

Lemma bucket_sort_cons_notin ds x l :
  key x ∉ ds → bucket_sort ds (x :: l) = bucket_sort ds l.
Proof.
  induction ds as [|d ds IH]; intros Hx; [done|].
  rewrite !bucket_sort_cons. apply not_elem_of_cons in Hx as [Hd Hds].
  by rewrite bucket_cons_ne, IH.
Qed.

Lemma bucket_sort_cons_in ds x l :
  NoDup ds → key x ∈ ds → bucket_sort ds (x :: l) ≡ₚ x :: bucket_sort ds l.
Proof.
  induction ds as [|d ds IH]; intros Hnd Hx.
  - by apply elem_of_nil in Hx.
  - apply NoDup_cons in Hnd as [Hd Hnd]. rewrite !bucket_sort_cons.
    destruct (decide (key x = d)) as [<-|Hne].
    + by rewrite bucket_cons_eq, bucket_sort_cons_notin.
    + rewrite bucket_cons_ne by done. apply elem_of_cons in Hx as [?|Hx]; [done|].
      rewrite IH by done. by rewrite Permutation_middle.
Qed.

Lemma bucket_sort_nil ds : bucket_sort ds [] = [].
Proof. induction ds as [|d ds IH]; [done|]. by rewrite bucket_sort_cons, IH. Qed.

Lemma bucket_sort_perm ds l :
  NoDup ds → Forall (λ v, key v ∈ ds) l → bucket_sort ds l ≡ₚ l.
Proof.
  intros Hnd. induction 1 as [|x l Hx Hl IH].
  - by rewrite bucket_sort_nil.
  - rewrite bucket_sort_cons_in by done. by rewrite IH.
Qed.

Lemma elem_of_bucket d l x : x ∈ bucket d l ↔ key x = d ∧ x ∈ l.
Proof. exact (list_elem_of_filter (λ v, key v = d) l x). Qed.

Lemma elem_of_bucket_sort ds l x :
  x ∈ bucket_sort ds l ↔ key x ∈ ds ∧ x ∈ l.
Proof.
  unfold bucket_sort. rewrite list_elem_of_bind. split.
  - intros (d & [<- ?]%elem_of_bucket & ?). done.
  - intros [? ?]. exists (key x). by rewrite elem_of_bucket.
Qed.

Lemma StronglySorted_bucket R d l :
  StronglySorted R l → StronglySorted (by_key R) (bucket d l).
Proof.
  induction 1 as [|x l Hl IH Hx]; [constructor|].
  destruct (decide (key x = d)) as [<-|Hne].
  - rewrite bucket_cons_eq. constructor; [done|].
    apply Forall_forall. intros y [Hy Hin]%elem_of_bucket.
    right. split; [done|]. rewrite Forall_forall in Hx. auto.
  - by rewrite bucket_cons_ne.
Qed.

(** The step of LSD radix sorting: a stable pass over a list ordered by
    [R] orders it by key first and by [R] among equal keys. *)
Lemma StronglySorted_bucket_sort R ds l :
  StronglySorted Z.lt ds → StronglySorted R l →
  StronglySorted (by_key R) (bucket_sort ds l).
Proof.
  intros Hds Hl.
  induction Hds as [|d ds Hds IH Hd]; [constructor|].
  rewrite bucket_sort_cons. apply StronglySorted_app_2.
  - intros x y [<- _]%elem_of_bucket Hy.
    apply (elem_of_bucket_sort ds l y) in Hy as [Hy _].
    left. rewrite Forall_forall in Hd. by apply Hd.
  - by apply StronglySorted_bucket.
  - done.
Qed.

Lemma length_bucket_sort_snoc ds d l :
  length (bucket_sort (ds ++ [d]) l)
  = (length (bucket_sort ds l) + length (bucket d l))%nat.
Proof.
  unfold bucket_sort. rewrite bind_app, bind_singleton. apply length_app.
Qed.

(** The output array of the counting pass while it is being filled from
    the back: the elements [pre] are still to be placed and leave holes
    (the initial [0]s) at the front of their buckets, the elements [suf]
    are in place. *)
Definition blocks (ds : list Z) (pre suf : list Z) : list Z :=
  ds ≫= λ d, replicate (length (bucket d pre)) 0 ++ bucket d suf.

Lemma blocks_cons d ds pre suf :
  blocks (d :: ds) pre suf
  = (replicate (length (bucket d pre)) 0 ++ bucket d suf) ++ blocks ds pre suf.
Proof. done. Qed.

Lemma blocks_app ds1 ds2 pre suf :
  blocks (ds1 ++ ds2) pre suf = blocks ds1 pre suf ++ blocks ds2 pre suf.
Proof. apply bind_app. Qed.

Lemma length_blocks ds pre suf :
  length (blocks ds pre suf) = length (bucket_sort ds (pre ++ suf)).
Proof.
  induction ds as [|d ds IH]; [done|].
  rewrite blocks_cons, bucket_sort_cons, !length_app, length_replicate, IH.
  rewrite bucket_app, length_app. lia.
Qed.

Lemma blocks_nil_l ds suf : blocks ds [] suf = bucket_sort ds suf.
Proof.
  induction ds as [|d ds IH]; [done|].
  by rewrite blocks_cons, bucket_sort_cons, IH.
Qed.

Lemma blocks_nil_r ds pre :
  blocks ds pre [] = replicate (length (bucket_sort ds pre)) 0.
Proof.
  induction ds as [|d ds IH]; [done|].
  rewrite blocks_cons, bucket_sort_cons, IH, length_app, replicate_add.
  by rewrite app_nil_r.
Qed.

Lemma blocks_move_notin ds pre x suf :
  key x ∉ ds → blocks ds (pre ++ [x]) suf = blocks ds pre (x :: suf).
Proof.
  induction ds as [|d ds IH]; intros Hx; [done|].
  apply not_elem_of_cons in Hx as [Hd Hds].
  rewrite !blocks_cons, IH by done.
  rewrite bucket_app, !(bucket_cons_ne d x) by done.
  by rewrite app_nil_r.
Qed.

Lemma insert_last_hole (k : nat) (x : Z) (t : list Z) :
  <[k := x]> (replicate (k + 1) 0 ++ t) = replicate k 0 ++ x :: t.
Proof. induction k as [|k IH]; simpl; [done|]. by rewrite IH. Qed.

(** Placing [x], the last element not yet placed, at the last hole of
    its bucket. *)
Lemma blocks_move ds1 ds2 pre x suf :
  key x ∉ ds1 → key x ∉ ds2 →
  let i := (length (bucket_sort ds1 (pre ++ x :: suf))
            + length (bucket (key x) pre))%nat in
  (i < length (blocks (ds1 ++ key x :: ds2) (pre ++ [x]) suf))%nat
  ∧ <[i := x]> (blocks (ds1 ++ key x :: ds2) (pre ++ [x]) suf)
    = blocks (ds1 ++ key x :: ds2) pre (x :: suf).
Proof.
  intros H1 H2 i. unfold i. clear i.
  rewrite !blocks_app, !blocks_cons.
  rewrite (blocks_move_notin ds1), (blocks_move_notin ds2) by done.
  rewrite <- (length_blocks ds1 pre (x :: suf)).
  rewrite (bucket_app (key x) pre [x]), (bucket_cons_eq x []: _ = [x]).
  rewrite (bucket_cons_eq x suf), (length_app (bucket (key x) pre) [x]).
  change (length [x]) with 1%nat.
  generalize (length (bucket (key x) pre)) (blocks ds1 pre (x :: suf))
    (blocks ds2 pre (x :: suf)) (bucket (key x) suf).
  intros k A B C. split.
  - rewrite !length_app, length_replicate. lia.
  - rewrite insert_app_r. f_equal.
    rewrite <- !app_assoc. apply insert_last_hole.
Qed.

Lemma length_bucket_snoc d pre x :
  Z.of_nat (length (bucket d (pre ++ [x])))
  = Z.of_nat (length (bucket d pre)) + (if key x =? d then 1 else 0).
Proof.
  rewrite bucket_app, length_app.
  destruct (Z.eqb_spec (key x) d) as [<-|Hne].
  - rewrite bucket_cons_eq. simpl. lia.
  - rewrite bucket_cons_ne by done. simpl. lia.
Qed.
End BucketSort.

(** *** The [count] array *)

(** The ten counters holding [f 0 .. f 9]. *)
Definition count_of (f : Z → Z) : list Z := f <$> seqZ 0 10.

Ltac digit_cases d :=
  let H := fresh in
  assert (d = 0 ∨ d = 1 ∨ d = 2 ∨ d = 3 ∨ d = 4 ∨ d = 5 ∨ d = 6 ∨ d = 7
          ∨ d = 8 ∨ d = 9) as H by lia;
  repeat (destruct H as [->|H]); [..|subst d].

Lemma load_count_of f d : 0 ≤ d < 10 → load (count_of f) d = Some (f d).
Proof. intros Hd. digit_cases d; reflexivity. Qed.

Lemma store_count_of f d v :
  0 ≤ d < 10 →
  store (count_of f) d v = Some (count_of (λ e, if e =? d then v else f e)).
Proof. intros Hd. digit_cases d; reflexivity. Qed.

Lemma count_of_ext f g :
  (∀ d, 0 ≤ d < 10 → f d = g d) → count_of f = count_of g.
Proof.
  intros Hfg. unfold count_of. apply list_fmap_ext.
  intros i d [-> ?]%lookup_seqZ. apply Hfg. lia.
Qed.

(** *** One counting pass of the program *)

(** Reduction of the binds of the option monad only. *)
Ltac bind_step := cbn [mbind option_bind].

Ltac run_for_lt P :=
  let h := goal_head_call in
  lazymatch h with
  | for_lt ?lo ?hi ?body ?s =>
      let s' := fresh "s" in let Hrun := fresh "Hrun" in
      let HP := fresh "HP" in
      destruct (for_lt_inv P lo hi body s) as (s' & Hrun & HP);
      [ | cbv beta | cbv beta | rewrite Hrun; clear Hrun; bind_step ]
  end.

Ltac run_for_down P :=
  let h := goal_head_call in
  lazymatch h with
  | for_down ?hi ?lo ?body ?s =>
      let s' := fresh "s" in let Hrun := fresh "Hrun" in
      let HP := fresh "HP" in
      destruct (for_down_inv P hi lo body s) as (s' & Hrun & HP);
      [ | cbv beta | cbv beta | rewrite Hrun; clear Hrun; bind_step ]
  end.

Definition bucket_count (key : Z → Z) (d : Z) (l : list Z) : Z :=
  Z.of_nat (length (bucket key d l)).

(** The number of elements of [l] with a key in [0 .. d - 1]. *)
Definition count_below (key : Z → Z) (l : list Z) (d : Z) : Z :=
  Z.of_nat (length (bucket_sort key (seqZ 0 d) l)).

Lemma count_below_succ key l d :
  0 ≤ d → count_below key l (d + 1) = count_below key l d + bucket_count key d l.
Proof.
  intros Hd. unfold count_below, bucket_count.
  rewrite seqZ_app by lia.
  rewrite (seqZ_cons _ 1), (seqZ_nil _ (Z.pred 1)) by lia.
  rewrite length_bucket_sort_snoc, Z.add_0_l. lia.
Qed.

Lemma seqZ_split d :
  0 ≤ d < 10 → seqZ 0 10 = seqZ 0 d ++ d :: seqZ (d + 1) (9 - d).
Proof.
  intros Hd. replace 10 with (d + (10 - d)) at 1 by lia.
  rewrite seqZ_app by lia. rewrite (seqZ_cons _ (10 - d)) by lia.
  do 3 f_equal; lia.
Qed.

Section CountingSort.
Context (key : Z → Z) (exp : Z) (arr : list Z) (n : Z).
Hypothesis Hn : 0 ≤ n ≤ Z.of_nat (length arr).
Hypothesis Hkey :
  Forall (λ v, digit exp v = Some (key v) ∧ 0 ≤ key v < 10)
         (take (Z.to_nat n) arr).

Local Abbreviation l := (take (Z.to_nat n) arr).

Lemma counting_length_l : length l = Z.to_nat n.
Proof. rewrite length_take. lia. Qed.

Lemma counting_load i :
  0 ≤ i < n →
  ∃ x, load arr i = Some x ∧ l !! Z.to_nat i = Some x
       ∧ digit exp x = Some (key x) ∧ 0 ≤ key x < 10.
Proof.
  intros Hi. destruct (load_in_range arr i) as [x Hx]; [lia|].
  exists x. split; [done|].
  assert (l !! Z.to_nat i = Some x) as Hl.
  { rewrite lookup_take_lt by lia. by apply load_Some in Hx as [_ ?]. }
  split; [done|]. rewrite Forall_forall in Hkey.
  apply Hkey. by eapply list_elem_of_lookup_2.
Qed.

Lemma counting_keys : Forall (λ v, key v ∈ seqZ 0 10) l.
Proof.
  eapply Forall_impl; [exact Hkey|]. intros v [_ Hv]. apply elem_of_seqZ. lia.
Qed.

Lemma counting_total : length (bucket_sort key (seqZ 0 10) l) = Z.to_nat n.
Proof.
  rewrite (bucket_sort_perm key _ _ (NoDup_seqZ 0 10) counting_keys).
  apply counting_length_l.
Qed.

(** The counters after the three phases of the pass. *)
Lemma counting_loop_count :
  for_lt 0 n
    (λ i count,
       ai ← load arr i; d ← digit exp ai;
       c ← load count d; store count d (c + 1))
    (replicate 10 0)
  = Some (count_of (λ d, bucket_count key d l)).
Proof.
  run_for_lt (λ j count,
    count = count_of (λ d, bucket_count key d (take (Z.to_nat j) l))).
  - lia.
  - done.
  - intros j count Hj ->.
    destruct (counting_load j Hj) as (x & Hload & Hx & Hdigit & Hd).
    rewrite Hload. bind_step. rewrite Hdigit. bind_step.
    rewrite load_count_of by done. bind_step.
    rewrite store_count_of by done. eexists. split; [done|].
    apply count_of_ext. intros d _.
    replace (Z.to_nat (j + 1)) with (S (Z.to_nat j)) by lia.
    rewrite (take_S_r _ _ _ Hx). unfold bucket_count.
    rewrite length_bucket_snoc.
    destruct (Z.eqb_spec d (key x)) as [->|Hne].
    + by rewrite Z.eqb_refl.
    + destruct (Z.eqb_spec (key x) d); [congruence|lia].
  - rewrite HP. apply (f_equal Some), count_of_ext. intros d _.
    by rewrite take_ge by (rewrite counting_length_l; lia).
Qed.

Lemma counting_loop_prefix :
  for_lt 1 10
    (λ i count,
       c ← load count i; p ← load count (i - 1); store count i (c + p))
    (count_of (λ d, bucket_count key d l))
  = Some (count_of (λ d, count_below key l (d + 1))).
Proof.
  run_for_lt (λ i count,
    count = count_of (λ d, if d <? i then count_below key l (d + 1)
                           else bucket_count key d l)).
  - lia.
  - apply count_of_ext. intros d Hd. destruct (Z.ltb_spec d 1); [|done].
    replace d with 0 by lia. by rewrite count_below_succ.
  - intros i count Hi ->.
    rewrite !load_count_of by lia. bind_step.
    rewrite store_count_of by lia. eexists. split; [done|].
    apply count_of_ext. intros d Hd.
    destruct (Z.ltb_spec i i); [lia|].
    destruct (Z.ltb_spec (i - 1) i); [|lia].
    replace (i - 1 + 1) with i by lia.
    destruct (Z.eqb_spec d i) as [->|Hne].
    + destruct (Z.ltb_spec i (i + 1)); [|lia].
      rewrite count_below_succ by lia. lia.
    + destruct (Z.ltb_spec d i), (Z.ltb_spec d (i + 1)); done || lia.
  - rewrite HP. apply (f_equal Some), count_of_ext. intros d Hd.
    destruct (Z.ltb_spec d 10); [done|lia].
Qed.

Lemma counting_loop_place :
  for_down (n - 1) 0
    (λ i '(output, count),
       ai ← load arr i; d ← digit exp ai;
       c ← load count d;
       output' ← store output (c - 1) ai;
       count' ← store count d (c - 1);
       Some (output', count'))
    (replicate (Z.to_nat n) 0, count_of (λ d, count_below key l (d + 1)))
  = Some (bucket_sort key (seqZ 0 10) l, count_of (count_below key l)).
Proof.
  run_for_down (λ i '(output, count),
    output = blocks key (seqZ 0 10) (take (Z.to_nat (i + 1)) l)
                                    (drop (Z.to_nat (i + 1)) l)
    ∧ count = count_of (λ d, count_below key l d
                             + bucket_count key d (take (Z.to_nat (i + 1)) l))).
  - lia.
  - replace (n - 1 + 1) with n by lia.
    rewrite take_ge, drop_ge by (rewrite counting_length_l; lia).
    rewrite blocks_nil_r, counting_total. split; [done|].
    apply count_of_ext. intros d Hd. by rewrite count_below_succ by lia.
  - intros i [output count] Hi [-> ->].
    assert (0 ≤ i < n) as Hi' by lia.
    destruct (counting_load i Hi') as (x & Hload & Hx & Hdigit & Hd).
    rewrite Hload. bind_step. rewrite Hdigit. bind_step.
    rewrite load_count_of by done. bind_step.
    replace (Z.to_nat (i + 1)) with (S (Z.to_nat i)) by lia.
    replace (Z.to_nat (i - 1 + 1)) with (Z.to_nat i) by lia.
    rewrite (take_S_r _ _ _ Hx). rewrite (drop_S _ _ _ Hx).
    pose proof (take_drop (Z.to_nat i) l) as Hl.
    rewrite (drop_S _ _ _ Hx) in Hl.
    rewrite (seqZ_split (key x) Hd).
    destruct (blocks_move key (seqZ 0 (key x)) (seqZ (key x + 1) (9 - key x))
                (take (Z.to_nat i) l) x (drop (S (Z.to_nat i)) l))
      as [Hlt Hins]; [rewrite elem_of_seqZ; lia..|].
    rewrite Hl in Hlt, Hins.
    set (p := count_below key l (key x)
              + bucket_count key (key x) (take (Z.to_nat i) l ++ [x]) - 1).
    assert (Z.to_nat p
            = (length (bucket_sort key (seqZ 0 (key x)) l)
               + length (bucket key (key x) (take (Z.to_nat i) l)))%nat) as Hp.
    { unfold p, count_below, bucket_count. rewrite length_bucket_snoc.
      rewrite Z.eqb_refl. lia. }
    assert (0 ≤ p) as Hp0.
    { unfold p, count_below, bucket_count. rewrite length_bucket_snoc.
      rewrite Z.eqb_refl. lia. }
    rewrite <- Hp in Hlt, Hins.
    rewrite (store_in_range _ p x) by lia.
    bind_step. rewrite Hins. rewrite <- (seqZ_split (key x) Hd).
    rewrite store_count_of by done. eexists. split; [done|].
    split; [done|]. apply count_of_ext. intros d _.
    unfold p, bucket_count. rewrite !length_bucket_snoc.
    destruct (Z.eqb_spec d (key x)) as [->|Hne].
    + rewrite Z.eqb_refl. lia.
    + destruct (Z.eqb_spec (key x) d); [congruence|lia].
  - destruct s as [output count]. destruct HP as [-> ->].
    replace (Z.to_nat (0 - 1 + 1)) with O by lia.
    rewrite take_0, drop_0, blocks_nil_l. do 2 f_equal.
    apply count_of_ext. intros d _. unfold bucket_count. simpl. lia.
Qed.

Lemma counting_loop_copy (output : list Z) :
  length output = Z.to_nat n →
  for_lt 0 n (λ i arr, v ← load output i; store arr i v) arr
  = Some (output ++ drop (Z.to_nat n) arr).
Proof.
  intros Hlen.
  run_for_lt (λ i a,
    a = take (Z.to_nat i) output ++ drop (Z.to_nat i) arr).
  - lia.
  - done.
  - intros i a Hi ->.
    destruct (load_in_range output i) as [v Hv]; [lia|]. rewrite Hv. bind_step.
    apply load_Some in Hv as [_ Hv].
    destruct (lookup_lt_is_Some_2 arr (Z.to_nat i)) as [y Hy]; [lia|].
    rewrite store_in_range.
    2: { rewrite length_app, length_take, length_drop. lia. }
    eexists. split; [done|].
    replace (Z.to_nat (i + 1)) with (S (Z.to_nat i)) by lia.
    rewrite (take_S_r _ _ _ Hv), (drop_S _ _ _ Hy), <- app_assoc. simpl.
    rewrite <- (Nat.add_0_r (Z.to_nat i)) at 1.
    rewrite <- (length_take_le output (Z.to_nat i)) at 1 by lia.
    by rewrite insert_app_r.
  - rewrite HP, take_ge by lia. done.
Qed.

(** The pass of the program is the stable bucket sort by [key] of the
    first [n] elements; the rest of the array is not touched. *)
Lemma countingSortForRadix_bucket_sort :
  countingSortForRadix arr n exp
  = Some (bucket_sort key (seqZ 0 10) l ++ drop (Z.to_nat n) arr).
Proof.
  unfold countingSortForRadix. destruct (Z.ltb_spec n 0); [lia|].
  rewrite counting_loop_count. bind_step.
  rewrite counting_loop_prefix. bind_step.
  rewrite counting_loop_place. bind_step.
  apply counting_loop_copy, counting_total.
Qed.
End CountingSort.

(** *** The maximum *)

Lemma getMax_spec (arr : list Z) (n : Z) :
  1 ≤ n ≤ Z.of_nat (length arr) →
  ∃ m, getMax arr n = Some m
       ∧ m ∈ take (Z.to_nat n) arr
       ∧ Forall (λ v, v ≤ m) (take (Z.to_nat n) arr).
Proof.
  intros Hn. unfold getMax.
  destruct (load_in_range arr 0) as [a0 Ha0]; [lia|]. rewrite Ha0. bind_step.
  apply load_Some in Ha0 as [_ Ha0]. change (Z.to_nat 0) with O in Ha0.
  run_for_lt (λ j mx, mx ∈ take (Z.to_nat j) arr
                      ∧ Forall (λ v, v ≤ mx) (take (Z.to_nat j) arr)).
  - lia.
  - change (Z.to_nat 1) with 1%nat. rewrite (take_S_r _ _ _ Ha0). simpl.
    split; [apply list_elem_of_here|]. by repeat constructor.
  - intros j mx Hj [Hin Hle].
    destruct (load_in_range arr j) as [aj Haj]; [lia|]. rewrite Haj. bind_step.
    apply load_Some in Haj as [_ Haj]. eexists. split; [done|].
    replace (Z.to_nat (j + 1)) with (S (Z.to_nat j)) by lia.
    rewrite (take_S_r _ _ _ Haj).
    destruct (Z.gtb_spec aj mx) as [Hgt|Hngt]; split.
    + apply elem_of_app. right. apply list_elem_of_here.
    + apply Forall_app. split; [|by repeat constructor].
      eapply Forall_impl; [exact Hle|]. simpl. lia.
    + apply elem_of_app. by left.
    + apply Forall_app. split; [done|]. by repeat constructor.
  - by exists s.
Qed.

(** [getMax] reads [arr[0]] before anything else. *)
Lemma getMax_empty (n : Z) : getMax [] n = None.
Proof. done. Qed.

(** *** The passes of [radixSort] *)

(** [(v / exp) % 10] as a number. *)
Definition digit_of (exp v : Z) : Z := Z.rem (v ÷ exp) 10.

(** The value of [exp] at the [k]-th test of the loop of [radixSort]. *)
Definition radix_exp (k : nat) : Z := Nat.iter k (λ e, wrap (e * 10)) 1.

(** One pass on the list of the first [n] elements. *)
Definition radix_pass (exp : Z) (l : list Z) : list Z :=
  bucket_sort (digit_of exp) (seqZ 0 10) l.

(** [x] is at most [y] on the digits below the [k]-th. *)
Definition mod_le (P : Z) : relation Z := λ x y, x mod P ≤ y mod P.



Lemma digit_nonneg exp v :
  0 < exp → 0 ≤ v →
  digit exp v = Some (digit_of exp v) ∧ 0 ≤ digit_of exp v < 10.
Proof.
  intros Hexp Hv. unfold digit, int_div, digit_of.
  destruct (Z.eqb_spec exp 0); [lia|]. destruct (Z.eqb_spec exp (-1)); [lia|].
  rewrite andb_false_r. simpl. split; [done|].
  apply Z.rem_bound_pos; [|lia]. apply Z.quot_pos; lia.
Qed.

Lemma digit_of_div_mod exp v :
  0 < exp → 0 ≤ v → digit_of exp v = (v / exp) mod 10.
Proof.
  intros. unfold digit_of. rewrite Z.quot_div_nonneg by lia.
  apply Z.rem_mod_nonneg; [|lia]. apply Z.div_pos; lia.
Qed.

(** The step of the LSD argument on numbers: the order on the digits
    below [P], refined by the digit at [P], is the order on the digits
    below [10 * P]. *)
Lemma by_key_mod_le P x y :
  0 < P → 0 ≤ x → 0 ≤ y →
  by_key (digit_of P) (mod_le P) x y → mod_le (P * 10) x y.
Proof.
  intros HP Hx Hy. unfold by_key, mod_le.
  rewrite !digit_of_div_mod by lia. rewrite !Z.rem_mul_r by lia.
  pose proof (Z.mod_pos_bound x P HP). pose proof (Z.mod_pos_bound y P HP).
  intros [Hlt|[Heq Hle]]; [nia|]. rewrite Heq. lia.
Qed.

(** A pass whose digit grows with the value keeps an ordered list
    ordered. *)
Lemma by_key_monotone exp x y :
  0 < exp → 0 ≤ x → 0 ≤ y → x / exp < 10 → y / exp < 10 →
  by_key (digit_of exp) Z.le x y → x ≤ y.
Proof.
  intros Hexp Hx Hy Hsmallx Hsmall. unfold by_key.
  rewrite !digit_of_div_mod by lia.
  intros [Hlt|[_ Hle]]; [|done].
  destruct (Z.le_gt_cases x y) as [|Hgt]; [done|].
  pose proof (Z.div_le_mono y x exp Hexp ltac:(lia)) as Hdiv.
  pose proof (Z.div_pos y exp Hy Hexp).
  pose proof (Z.div_pos x exp Hx Hexp).
  rewrite !Z.mod_small in Hlt by lia. lia.
Qed.

Lemma StronglySorted_impl_elem (R R' : relation Z) (l : list Z) :
  (∀ x y, x ∈ l → y ∈ l → R x y → R' x y) →
  StronglySorted R l → StronglySorted R' l.
Proof.
  intros Himpl Hl. induction Hl as [|x l Hl IH Hx]; [constructor|].
  constructor.
  - apply IH. intros y z Hy Hz. apply Himpl; by apply list_elem_of_further.
  - apply Forall_forall. intros y Hy. rewrite Forall_forall in Hx.
    apply Himpl; [apply list_elem_of_here|by apply list_elem_of_further|auto].
Qed.



Lemma radix_exp_S k : radix_exp (S k) = wrap (radix_exp k * 10).
Proof. done. Qed.

Lemma radix_exp_pow (k : nat) : (k ≤ 9)%nat → radix_exp k = 10 ^ Z.of_nat k.
Proof.
  intros Hk. do 10 (destruct k as [|k]; [reflexivity|]). lia.
Qed.

Lemma radix_exp_cases (k : nat) :
  (k ≤ 12)%nat →
  ((k ≤ 9)%nat ∧ radix_exp k = 10 ^ Z.of_nat k)
  ∨ (k = 10%nat ∧ radix_exp k = 1410065408)
  ∨ (k = 11%nat ∧ radix_exp k = 1215752192)
  ∨ (k = 12%nat ∧ radix_exp k = -727379968).
Proof.
  intros Hk. destruct (decide (k ≤ 9)%nat) as [H9|H9].
  - left. split; [done|]. by apply radix_exp_pow.
  - right. assert (k = 10 ∨ k = 11 ∨ k = 12)%nat as [-> | [-> | ->]] by lia; auto.
Qed.

Lemma pow10_pos (k : nat) : 0 < 10 ^ Z.of_nat k.
Proof. apply Z.pow_pos_nonneg; lia. Qed.

Lemma pow10_ge (k : nat) : (10 ≤ k)%nat → INT_MAX < 10 ^ Z.of_nat k.
Proof.
  intros Hk. apply Z.lt_le_trans with (10 ^ 10); [done|].
  apply Z.pow_le_mono_r; lia.
Qed.

(** The loop test fails only with [exp] non-zero, and holds only for a
    positive [exp] reached within twelve steps. *)
Lemma radix_test (k : nat) (m : Z) :
  (k ≤ 12)%nat → 0 ≤ m ≤ INT_MAX →
  ∃ q, int_div m (radix_exp k) = Some q
       ∧ (0 < q → (k ≤ 11)%nat ∧ 0 < radix_exp k ∧ radix_exp k ≤ m)
       ∧ (q ≤ 0 → m < 10 ^ Z.of_nat k ∧ (0 < radix_exp k → m < radix_exp k)).
Proof.
  intros Hk Hm. pose proof (pow10_pos k) as Hpos.
  assert (radix_exp k ≠ 0 ∧ radix_exp k ≠ -1 ∧
          (0 < radix_exp k ∨ radix_exp k = -727379968 ∧ k = 12%nat)) as (H0 & H1 & Hsign).
  { destruct (radix_exp_cases k Hk) as [[_ ->] | [[_ ->] | [[_ ->] | [-> ->]]]]; lia. }
  unfold int_div. destruct (Z.eqb_spec (radix_exp k) 0); [done|].
  destruct (Z.eqb_spec (radix_exp k) (-1)); [done|].
  rewrite andb_false_r. simpl. eexists. split; [done|].
  destruct Hsign as [Hsign|[Hneg ->]].
  - rewrite Z.quot_div_nonneg by lia. split.
    + intros Hq. split; [|split; [done|]].
      * destruct (radix_exp_cases k Hk) as [[? _] | [[-> _] | [[-> _] | [-> E]]]]; lia.
      * destruct (Z.le_gt_cases (radix_exp k) m); [done|].
        rewrite Z.div_small in Hq; lia.
    + intros Hq.
      assert (m < radix_exp k) as Hlt.
      { destruct (Z.lt_ge_cases m (radix_exp k)); [done|].
        assert (1 ≤ m / radix_exp k); [|lia].
        apply Z.div_le_lower_bound; lia. }
      split; [|done].
      destruct (decide (k ≤ 9)%nat) as [H9|H9].
      * by rewrite radix_exp_pow in Hlt.
      * pose proof (pow10_ge k ltac:(lia)). lia.
  - rewrite Hneg. split.
    + intros Hq. exfalso.
      pose proof (Z.quot_pos m 727379968 ltac:(lia) ltac:(lia)).
      change (-727379968) with (- (727379968)) in Hq.
      rewrite Z.quot_opp_r in Hq by lia. lia.
    + intros _. pose proof (pow10_ge 12 ltac:(lia)). lia.
Qed.

(** From one invariant order of the loop to the next, on [int] values
    that are not negative. *)
Lemma radix_order_step (k : nat) (x y : Z) :
  (k ≤ 11)%nat → 0 < radix_exp k →
  0 ≤ x ≤ INT_MAX → 0 ≤ y ≤ INT_MAX →
  by_key (digit_of (radix_exp k)) (mod_le (10 ^ Z.of_nat k)) x y →
  mod_le (10 ^ Z.of_nat (S k)) x y.
Proof.
  intros Hk Hpos Hx Hy Hxy.
  destruct (decide (k ≤ 9)%nat) as [H9|H9].
  - rewrite radix_exp_pow in * by done.
    rewrite Nat2Z.inj_succ, Z.pow_succ_r, Z.mul_comm by lia.
    apply by_key_mod_le; done || lia.
  - pose proof (pow10_ge k ltac:(lia)). pose proof (pow10_ge (S k) ltac:(lia)).
    unfold mod_le. rewrite !Z.mod_small by lia.
    assert (10 ^ 9 ≤ radix_exp k) as Hbig.
    { assert (k = 10 ∨ k = 11)%nat as [-> | ->] by lia; done. }
    apply (by_key_monotone (radix_exp k)); try lia.
    + apply Z.div_lt_upper_bound; unfold INT_MAX in *; lia.
    + apply Z.div_lt_upper_bound; unfold INT_MAX in *; lia.
    + destruct Hxy as [?|[? Hle]]; [by left|right].
      split; [done|]. unfold mod_le in Hle. by rewrite !Z.mod_small in Hle by lia.
Qed.

Lemma StronglySorted_total (R : relation Z) (l : list Z) :
  (∀ x y, R x y) → StronglySorted R l.
Proof.
  intros HR. induction l; constructor; [done|]. by apply Forall_forall.
Qed.

(** The list of the first [n] elements after the passes [passes]. *)
Definition radix_passes (passes : list Z) (l : list Z) : list Z :=
  foldl (λ l exp, radix_pass exp l) l passes.

Section RadixSort.
Context (arr : list Z) (n : Z).
Hypothesis Hn : 1 ≤ n ≤ Z.of_nat (length arr).
Hypothesis Hval : Forall (λ v, 0 ≤ v ≤ INT_MAX) (take (Z.to_nat n) arr).

Local Abbreviation l0 := (take (Z.to_nat n) arr).

Lemma radix_pass_perm exp l :
  0 < exp → Forall (λ v, 0 ≤ v ≤ INT_MAX) l → radix_pass exp l ≡ₚ l.
Proof.
  intros Hexp Hl. apply bucket_sort_perm; [apply NoDup_seqZ|].
  eapply Forall_impl; [exact Hl|]. intros v [Hv _]. simpl.
  apply elem_of_seqZ. destruct (digit_nonneg exp v Hexp Hv) as [_ ?]. lia.
Qed.

(** The run of [radixSort]: [k] passes with the first [k] values of
    [exp]. *)
Lemma radixSort_run_spec :
  ∃ (m : Z) (k : nat),
    getMax arr n = Some m
    ∧ radixSort_run arr n
      = Some (radix_passes (radix_exp <$> seq 0 k) l0 ++ drop (Z.to_nat n) arr,
              radix_exp <$> seq 0 k)
    ∧ (k ≤ 12)%nat
    ∧ radix_passes (radix_exp <$> seq 0 k) l0 ≡ₚ l0
    ∧ StronglySorted Z.le (radix_passes (radix_exp <$> seq 0 k) l0)
    ∧ (∀ j, (j < k)%nat → radix_exp j ≤ m)
    ∧ m < 10 ^ Z.of_nat k
    ∧ (0 < radix_exp k → m < radix_exp k).
Proof.
  destruct (getMax_spec arr n Hn) as (m & Hmax & Hin & Hle).
  assert (0 ≤ m ≤ INT_MAX) as Hm.
  { rewrite Forall_forall in Hval. by apply Hval. }
  exists m. unfold radixSort_run. rewrite Hmax. bind_step.
  assert (length l0 = Z.to_nat n) as Hlen0 by (rewrite length_take; lia).
  assert (∃ s, while RADIX_FUEL
      (λ '(_, exp, _), q ← int_div m exp; Some (q >? 0))
      (λ '(arr0, exp, passes),
         arr' ← countingSortForRadix arr0 n exp;
         Some (arr', wrap (exp * 10), passes ++ [exp]))
      (arr, 1, []) = Some s
    ∧ (let '(a, exp, passes) := s in
       ∃ k : nat, (k ≤ 12)%nat ∧ exp = radix_exp k
         ∧ passes = radix_exp <$> seq 0 k
         ∧ a = radix_passes passes l0 ++ drop (Z.to_nat n) arr
         ∧ radix_passes passes l0 ≡ₚ l0
         ∧ StronglySorted (mod_le (10 ^ Z.of_nat k)) (radix_passes passes l0)
         ∧ (∀ j, (j < k)%nat → radix_exp j ≤ m))
    ∧ (let '(_, exp, _) := s in q ← int_div m exp; Some (q >? 0)) = Some false)
    as ([[a exp] passes] & Hrun & (k & Hk & -> & -> & -> & Hperm & Hsorted & Hprev)
        & Hexit).
  { apply (while_inv
      (λ '(a, exp, passes),
         ∃ k : nat, (k ≤ 12)%nat ∧ exp = radix_exp k
           ∧ passes = radix_exp <$> seq 0 k
           ∧ a = radix_passes passes l0 ++ drop (Z.to_nat n) arr
           ∧ radix_passes passes l0 ≡ₚ l0
           ∧ StronglySorted (mod_le (10 ^ Z.of_nat k)) (radix_passes passes l0)
           ∧ (∀ j, (j < k)%nat → radix_exp j ≤ m))
      (λ '(_, _, passes), (12 - length passes)%nat)).
    - exists O. split; [lia|]. split; [done|]. split; [done|].
      split; [symmetry; apply take_drop|]. split; [done|]. split; [|lia].
      apply StronglySorted_total. intros x y. unfold mod_le.
      by rewrite !Z.mod_1_r.
    - unfold RADIX_FUEL. simpl. lia.
    - intros [[a exp] passes] (k & Hk & -> & -> & -> & Hperm & Hsorted & Hprev).
      destruct (radix_test k m Hk Hm) as (q & Hq & Htrue & _).
      rewrite Hq. bind_step. eexists. split; [done|].
      intros Hgt%Z.gtb_lt. destruct (Htrue Hgt) as (Hk11 & Hpos & Hlem).
      set (lk := radix_passes (radix_exp <$> seq 0 k) l0) in *.
      assert (length lk = Z.to_nat n) as Hlen by (by rewrite Hperm).
      assert (Forall (λ v, 0 ≤ v ≤ INT_MAX) lk) as Hvalk by (by rewrite Hperm).
      rewrite (countingSortForRadix_bucket_sort (digit_of (radix_exp k))).
      2: { rewrite length_app, length_drop. lia. }
      2: { rewrite take_app_length' by done.
           eapply Forall_impl; [exact Hvalk|]. intros v [Hv _]. simpl.
           by apply digit_nonneg. }
      bind_step. eexists. split; [done|].
      rewrite take_app_length', drop_app_length' by done.
      fold (radix_pass (radix_exp k) lk).
      assert (radix_passes ((radix_exp <$> seq 0 k) ++ [radix_exp k]) l0
              = radix_pass (radix_exp k) lk) as Hnext.
      { unfold radix_passes. by rewrite foldl_app. }
      split.
      + exists (S k). rewrite Hnext.
        split; [lia|]. split; [done|].
        split; [by rewrite seq_S, fmap_app|]. split; [done|].
        split; [by rewrite radix_pass_perm|]. split.
        * eapply StronglySorted_impl_elem;
            [|apply StronglySorted_bucket_sort; [|exact Hsorted]].
          -- intros x y Hx Hy. rewrite Forall_forall in Hvalk.
             apply radix_order_step; try done.
             ++ apply Hvalk. apply elem_of_bucket_sort in Hx. tauto.
             ++ apply Hvalk. apply elem_of_bucket_sort in Hy. tauto.
          -- apply (Sorted_StronglySorted Z.lt). repeat constructor.
        * intros j Hj. destruct (decide (j = k)) as [->|]; [done|].
          apply Hprev. lia.
      + rewrite length_app, !length_fmap, !length_seq. simpl. lia. }
  fold radix_passes in Hrun. rewrite Hrun. bind_step.
  exists k. split; [done|]. split; [done|]. split; [done|]. split; [done|].
  destruct (radix_test k m Hk Hm) as (q & Hq & _ & Hfalse).
  rewrite Hq in Hexit. simpl in Hexit. injection Hexit as Hexit.
  assert (m < 10 ^ Z.of_nat k ∧ (0 < radix_exp k → m < radix_exp k))
    as [Hlt Hlt'].
  { apply Hfalse. destruct (Z.gtb_spec q 0); [done|lia]. }
  split; [|done].
  eapply StronglySorted_impl_elem; [|exact Hsorted].
  intros x y Hx Hy. unfold mod_le.
  rewrite Forall_forall in Hval, Hle.
  rewrite Hperm in Hx, Hy.
  pose proof (Hval x Hx). pose proof (Hval y Hy).
  pose proof (Hle x Hx). pose proof (Hle y Hy).
  by rewrite !Z.mod_small by lia.
Qed.
End RadixSort.

(** X7.  One counting pass, on elements whose digit [(v / exp) % 10] is
    defined and lies in [0 .. 9] (as for every non-negative [v] and
    positive [exp]): the first [n] elements are replaced by their stable
    bucket sort by that digit (for each digit from 0 to 9 in turn, the
    elements with that digit in their original order), a permutation of
    them, and the rest of the array is left as it is. *)
Theorem countingSortForRadix_stable_pass (arr : list Z) (n exp : Z) :
  0 ≤ n ≤ Z.of_nat (length arr) →
  Forall (λ v, digit exp v = Some (digit_of exp v) ∧ 0 ≤ digit_of exp v < 10)
         (take (Z.to_nat n) arr) →
  countingSortForRadix arr n exp
  = Some (radix_pass exp (take (Z.to_nat n) arr) ++ drop (Z.to_nat n) arr)
  ∧ radix_pass exp (take (Z.to_nat n) arr) ≡ₚ take (Z.to_nat n) arr.
Proof.
  intros Hn Hkey. split.
  - by apply countingSortForRadix_bucket_sort.
  - apply bucket_sort_perm; [apply NoDup_seqZ|].
    eapply Forall_impl; [exact Hkey|]. intros v [_ Hv]. simpl.
    apply elem_of_seqZ. lia.
Qed.

Lemma countingSortForRadix_stable_pass_witness :
  let arr := [170; 45; 75; 90; 802; 24; 2; 66; -7] in
  (0 ≤ 8 ≤ Z.of_nat (length arr)
   ∧ Forall (λ v, digit 10 v = Some (digit_of 10 v) ∧ 0 ≤ digit_of 10 v < 10)
            (take (Z.to_nat 8) arr))
  ∧ countingSortForRadix arr 8 10
    = Some (radix_pass 10 (take (Z.to_nat 8) arr) ++ drop (Z.to_nat 8) arr)
  ∧ radix_pass 10 (take (Z.to_nat 8) arr) ≡ₚ take (Z.to_nat 8) arr.
Proof.
  intros arr.
  assert (0 ≤ 8 ≤ Z.of_nat (length arr)) as H1 by (simpl; lia).
  assert (Forall (λ v, digit 10 v = Some (digit_of 10 v)
                       ∧ 0 ≤ digit_of 10 v < 10)
                 (take (Z.to_nat 8) arr)) as H2.
  { repeat (constructor; [vm_compute; intuition discriminate|]). constructor. }
  split; [by split|]. exact (countingSortForRadix_stable_pass arr 8 10 H1 H2).
Defined.





(** ** The comparison backends sort their range *)

(** Reads and writes of an array given as the lists around a position. *)
Lemma load_middle (arr A B : list Z) (x i : Z) :
  arr = A ++ x :: B → i = Z.of_nat (length A) → load arr i = Some x.
Proof.
  intros -> ->. rewrite load_lookup. by apply list_lookup_middle.
Qed.

Lemma store_middle (arr A B : list Z) (x v i : Z) :
  arr = A ++ x :: B → i = Z.of_nat (length A) →
  store arr i v = Some (A ++ v :: B).
Proof.
  intros -> ->. rewrite store_in_range by (rewrite length_app; simpl; lia).
  rewrite Nat2Z.id. f_equal.
  rewrite <- (Nat.add_0_r (length A)) at 1. by rewrite insert_app_r.
Qed.

Ltac solve_list_eq :=
  repeat (rewrite <- ?app_assoc; simpl); reflexivity.

Ltac solve_len :=
  rewrite ?length_app; simpl; rewrite ?length_app; simpl; lia.

Lemma list_snoc_cases (l : list Z) : l = [] ∨ ∃ l' x, l = l' ++ [x].
Proof.
  induction l as [|y l IH] using rev_ind; [by left|right; eauto].
Qed.

(** *** Insertion sort *)

(** The inner loop on an array [P ++ M ++ key :: R], [M] in order: it
    stops with a hole at the place of [key] in [M]. *)
Lemma insertion_shift_spec (P M R : list Z) (key : Z) :
  StronglySorted Z.le M →
  ∃ A B h,
    insertion_shift (length M) (Z.of_nat (length P)) key
      (P ++ M ++ key :: R, Z.of_nat (length P + length M) - 1)
    = Some (P ++ A ++ h :: B ++ R, Z.of_nat (length P + length A) - 1)
    ∧ M = A ++ B
    ∧ Forall (λ v, v ≤ key) A
    ∧ Forall (λ v, key < v) B.
Proof.
  intros HM. unfold insertion_shift.
  edestruct (while_inv
    (λ '(a, j), ∃ A B h,
       a = P ++ A ++ h :: B ++ R
       ∧ j = Z.of_nat (length P + length A) - 1
       ∧ M = A ++ B ∧ Forall (λ v, key < v) B)
    (λ '((_, j) : list Z * Z), Z.to_nat (j - Z.of_nat (length P) + 1)))
    as ([a j] & Hrun & (A & B & h & -> & -> & HAB & HB) & Hexit).
  4: { exists A, B, h. split; [exact Hrun|]. split; [done|]. split; [|done].
       simpl in Hexit.
       destruct (list_snoc_cases A) as [->|(A' & x & ->)]; [constructor|].
       destruct (Z.geb_spec (Z.of_nat (length P + length (A' ++ [x])) - 1)
                   (Z.of_nat (length P))) as [_|Hlt];
         [|rewrite length_app in Hlt; simpl in Hlt; lia].
       rewrite (load_middle _ (P ++ A') (h :: B ++ R) x) in Hexit;
         [|solve_list_eq|solve_len].
       simpl in Hexit. injection Hexit as Hexit.
       assert (x ≤ key) as Hx by (destruct (Z.gtb_spec x key); [done|lia]).
       subst M. apply StronglySorted_app in HM as (_ & HA & _).
       apply StronglySorted_app in HA as (Hle & _ & _).
       apply Forall_app. split; [|by repeat constructor].
       apply Forall_forall. intros y Hy.
       specialize (Hle y x Hy ltac:(apply list_elem_of_here)). lia. }
  - exists M, [], key. rewrite app_nil_r. simpl. done.
  - simpl. lia.
  - intros [a j] (A & B & h & -> & -> & HAB & HB). simpl.
    destruct (list_snoc_cases A) as [->|(A' & x & ->)].
    { destruct (Z.geb_spec (Z.of_nat (length P + length (@nil Z)) - 1)
                  (Z.of_nat (length P))) as [Hge|_]; [simpl in Hge; lia|].
      eexists. split; [done|]. done. }
    destruct (Z.geb_spec (Z.of_nat (length P + length (A' ++ [x])) - 1)
                (Z.of_nat (length P))) as [_|Hlt];
      [|rewrite length_app in Hlt; simpl in Hlt; lia].
    rewrite (load_middle _ (P ++ A') (h :: B ++ R) x);
      [|solve_list_eq|solve_len].
    simpl. eexists. split; [done|]. intros Hgt%Z.gtb_lt.
    rewrite (store_middle _ (P ++ A' ++ [x]) (B ++ R) h x);
      [|solve_list_eq|solve_len].
    simpl. eexists. split; [done|]. split.
    + exists A', (x :: B), x. split; [solve_list_eq|].
      split; [solve_len|]. split; [rewrite HAB; solve_list_eq|].
      constructor; [lia|done].
    + rewrite length_app. simpl. lia.
Qed.

Lemma StronglySorted_insert_middle (A B : list Z) (key : Z) :
  StronglySorted Z.le (A ++ B) →
  Forall (λ v, v ≤ key) A → Forall (λ v, key < v) B →
  StronglySorted Z.le (A ++ key :: B).
Proof.
  intros (Hle & HA & HB)%StronglySorted_app HAk HBk.
  apply StronglySorted_app_2; [|done|].
  - intros x y Hx [->|Hy]%elem_of_cons; [|by apply Hle].
    rewrite Forall_forall in HAk. by apply HAk.
  - constructor; [done|]. eapply Forall_impl; [exact HBk|]. simpl. lia.
Qed.

(** [insertionSort] on the range [left .. right] that [W] occupies in
    [arr = P ++ W ++ S], in the form its callers use. *)
Lemma insertionSort_spec (arr P W S : list Z) (left right : Z) :
  arr = P ++ W ++ S →
  left = Z.of_nat (length P) → right = left + Z.of_nat (length W) - 1 →
  ∃ W', insertionSort arr left right = Some (P ++ W' ++ S)
        ∧ StronglySorted Z.le W' ∧ W' ≡ₚ W.
Proof.
  intros -> -> ->.
  replace (Z.of_nat (length P) + Z.of_nat (length W) - 1)
    with (Z.of_nat (length P + length W) - 1) by lia.
  unfold insertionSort. rewrite for_le_for_lt.
  destruct W as [|w W].
  { exists []. rewrite for_lt_empty by (simpl; lia). by repeat constructor. }
  assert (∃ a, for_lt (Z.of_nat (length P) + 1)
                 (Z.of_nat (length P + length (w :: W)) - 1 + 1)
      (λ i arr,
         key ← load arr i;
         '(arr', j) ← insertion_shift (Z.to_nat (i - Z.of_nat (length P)))
                        (Z.of_nat (length P)) key (arr, i - 1);
         store arr' (j + 1) key)
      (P ++ (w :: W) ++ S) = Some a
    ∧ ∃ M W1 R, w :: W = W1 ++ R ∧ a = P ++ M ++ R ++ S
        ∧ Z.of_nat (length P + length (w :: W)) - 1 + 1
          = Z.of_nat (length P + length M)
        ∧ StronglySorted Z.le M ∧ M ≡ₚ W1)
    as (a & -> & M & W1 & R & HW & -> & Hlen & HM & Hperm).
  { apply (for_lt_inv (λ i a, ∃ M W1 R, w :: W = W1 ++ R ∧ a = P ++ M ++ R ++ S
        ∧ i = Z.of_nat (length P + length M)
        ∧ StronglySorted Z.le M ∧ M ≡ₚ W1)).
    - simpl. lia.
    - exists [w], [w], W. split; [done|]. split; [done|]. split; [simpl; lia|].
      split; [by repeat constructor|done].
    - intros i a Hi (M & W1 & R & HW & -> & -> & HM & Hperm).
      assert (length W1 = length M) as HlenM by (by rewrite Hperm).
      destruct R as [|key R].
      { apply (f_equal length) in HW. rewrite app_nil_r in HW.
        simpl in *. lia. }
      rewrite (load_middle _ (P ++ M) (R ++ S) key);
        [|solve_list_eq|solve_len].
      bind_step.
      replace (Z.to_nat (Z.of_nat (length P + length M) - Z.of_nat (length P)))
        with (length M) by lia.
      destruct (insertion_shift_spec P M (R ++ S) key HM)
        as (A & B & h & Hshift & HAB & HA & HB).
      replace (P ++ M ++ (key :: R) ++ S) with (P ++ M ++ key :: R ++ S)
        by solve_list_eq.
      rewrite Hshift. bind_step.
      rewrite (store_middle _ (P ++ A) (B ++ R ++ S) h key);
        [|solve_list_eq|solve_len].
      eexists. split; [done|].
      exists (A ++ key :: B), (W1 ++ [key]), R.
      split; [rewrite HW; solve_list_eq|]. split; [solve_list_eq|].
      split; [subst M; solve_len|].
      split; [apply StronglySorted_insert_middle; by subst M|].
      rewrite <- Hperm, HAB. by rewrite <- Permutation_middle,
        (Permutation_app_comm _ [key]). }
  assert (length W1 = length M) as HlenM by (by rewrite Hperm).
  assert (R = []) as ->.
  { apply (f_equal length) in HW. rewrite length_app in HW.
    simpl in *. destruct R; [done|]. simpl in *. lia. }
  rewrite app_nil_r in HW. subst W1.
  exists M. split; [done|]. split; done.
Qed.

(** X1.  [insertionSort] on the range that [W] occupies in [P ++ W ++ S]:
    the call returns, [W] is replaced by an ordered permutation of itself,
    and [P] and [S] are left as they are. *)
Theorem insertionSort_sorts (P W S : list Z) :
  ∃ W', insertionSort (P ++ W ++ S) (Z.of_nat (length P))
          (Z.of_nat (length P + length W) - 1)
        = Some (P ++ W' ++ S)
        ∧ Sorted Z.le W' ∧ W' ≡ₚ W.
Proof.
  destruct (insertionSort_spec (P ++ W ++ S) P W S (Z.of_nat (length P))
              (Z.of_nat (length P + length W) - 1))
    as (W' & Hrun & HS & HP); [done|done|lia|].
  exists W'. split; [done|]. split; [by apply StronglySorted_Sorted|done].
Qed.

(** *** Merge sort *)

(** The loops that copy a half of the range into its buffer. *)
Lemma merge_copy_loop (arr P X T : list Z) (off : Z) :
  arr = P ++ X ++ T → off = Z.of_nat (length P) →
  for_lt 0 (Z.of_nat (length X))
    (λ i L, v ← load arr (off + i); store L i v)
    (replicate (length X) 0)
  = Some X.
Proof.
  intros -> ->.
  run_for_lt (λ i L, L = take (Z.to_nat i) X
                         ++ replicate (length X - Z.to_nat i) 0).
  - lia.
  - simpl. by rewrite Nat.sub_0_r.
  - intros i L Hi ->.
    destruct (lookup_lt_is_Some_2 X (Z.to_nat i)) as [v Hv]; [lia|].
    pose proof (take_drop_middle _ _ _ Hv) as HX.
    rewrite (load_middle _ (P ++ take (Z.to_nat i) X)
               (drop (S (Z.to_nat i)) X ++ T) v).
    2: { rewrite <- HX at 1. solve_list_eq. }
    2: { rewrite length_app, length_take. lia. }
    bind_step.
    replace (length X - Z.to_nat i)%nat
      with (S (length X - Z.to_nat (i + 1))) by lia.
    rewrite (store_middle _ (take (Z.to_nat i) X)
               (replicate (length X - Z.to_nat (i + 1)) 0) 0 v);
      [|done|rewrite length_take; lia].
    eexists. split; [done|].
    replace (Z.to_nat (i + 1)) with (S (Z.to_nat i)) by lia.
    rewrite (take_S_r _ _ _ Hv). solve_list_eq.
  - rewrite HP, Nat2Z.id, take_ge, Nat.sub_diag by lia.
    by rewrite app_nil_r.
Qed.

(** The loops that append what is left of a buffer. *)
Lemma merge_drain_loop (X2 : list Z) : ∀ (fuel : nat) (P Mg T X1 : list Z),
  (length X2 ≤ fuel)%nat → (length X2 ≤ length T)%nat →
  while fuel
    (λ '(_, i, _), Some (i <? Z.of_nat (length (X1 ++ X2))))
    (λ '(arr, i, k),
       li ← load (X1 ++ X2) i; arr' ← store arr k li;
       Some (arr', i + 1, k + 1))
    (P ++ Mg ++ T, Z.of_nat (length X1), Z.of_nat (length P + length Mg))
  = Some (P ++ (Mg ++ X2) ++ drop (length X2) T,
          Z.of_nat (length (X1 ++ X2)),
          Z.of_nat (length P + length (Mg ++ X2))).
Proof.
  induction X2 as [|x X2 IH]; intros fuel P Mg T X1 Hfuel HT.
  - rewrite !app_nil_r. destruct fuel; simpl; rewrite Z.ltb_irrefl; done.
  - destruct fuel as [|fuel]; [simpl in Hfuel; lia|].
    destruct T as [|t T]; [simpl in HT; lia|].
    simpl while. destruct (Z.ltb_spec (Z.of_nat (length X1))
                             (Z.of_nat (length (X1 ++ x :: X2))));
      [|rewrite length_app in *; simpl in *; lia].
    bind_step.
    rewrite (load_middle _ X1 X2 x) by done. bind_step.
    rewrite (store_middle _ (P ++ Mg) T t x); [|solve_list_eq|solve_len].
    bind_step.
    specialize (IH fuel P (Mg ++ [x]) T (X1 ++ [x])).
    replace ((X1 ++ [x]) ++ X2) with (X1 ++ x :: X2) in IH by solve_list_eq.
    replace (Z.of_nat (length (X1 ++ [x]))) with (Z.of_nat (length X1) + 1)
      in IH by solve_len.
    replace (Z.of_nat (length P + length (Mg ++ [x])))
      with (Z.of_nat (length P + length Mg) + 1) in IH by solve_len.
    replace (P ++ (Mg ++ [x]) ++ T) with ((P ++ Mg) ++ x :: T) in IH
      by solve_list_eq.
    rewrite IH by (simpl in *; lia).
    do 2 f_equal; [f_equal; solve_list_eq | solve_len].
Qed.

(** The main loop of [merge]: it stops with one of the halves used up,
    the merged elements in order and below what is left of both. *)
Lemma merge_main_loop (P A B T S : list Z) :
  StronglySorted Z.le A → StronglySorted Z.le B →
  length T = (length A + length B)%nat →
  ∃ Mg A1 A2 B1 B2 T',
    while (Z.to_nat (Z.of_nat (length A) + Z.of_nat (length B)))
      (λ '(_, i, j, _),
         Some ((i <? Z.of_nat (length A)) && (j <? Z.of_nat (length B))))
      (λ '(arr, i, j, k),
         li ← load A i;
         rj ← load B j;
         if li <=? rj then arr' ← store arr k li; Some (arr', i + 1, j, k + 1)
         else arr' ← store arr k rj; Some (arr', i, j + 1, k + 1))
      (P ++ T ++ S, 0, 0, Z.of_nat (length P))
    = Some (P ++ Mg ++ T' ++ S, Z.of_nat (length A1), Z.of_nat (length B1),
            Z.of_nat (length P + length Mg))
    ∧ A = A1 ++ A2 ∧ B = B1 ++ B2 ∧ (A2 = [] ∨ B2 = [])
    ∧ length T' = (length A2 + length B2)%nat
    ∧ Mg ≡ₚ A1 ++ B1 ∧ StronglySorted Z.le Mg
    ∧ (∀ x y, x ∈ Mg → y ∈ A2 ++ B2 → x ≤ y).
Proof.
  intros HA HB HT.
  edestruct (while_inv
    (λ '(a, i, j, k), ∃ Mg A1 A2 B1 B2 T',
       a = P ++ Mg ++ T' ++ S ∧ i = Z.of_nat (length A1) ∧ j = Z.of_nat (length B1)
       ∧ k = Z.of_nat (length P + length Mg)
       ∧ A = A1 ++ A2 ∧ B = B1 ++ B2
       ∧ length T' = (length A2 + length B2)%nat
       ∧ Mg ≡ₚ A1 ++ B1 ∧ StronglySorted Z.le Mg
       ∧ (∀ x y, x ∈ Mg → y ∈ A2 ++ B2 → x ≤ y))
    (λ '((_, i, j, _) : list Z * Z * Z * Z),
       Z.to_nat (Z.of_nat (length A) + Z.of_nat (length B) - i - j)))
    as ([[[a i] j] k] & Hrun
        & (Mg & A1 & A2 & B1 & B2 & T' & -> & -> & -> & -> & HA12 & HB12
           & HT' & Hperm & Hsorted & Hbound) & Hexit).
  4: { exists Mg, A1, A2, B1, B2, T'. split; [exact Hrun|].
       repeat (split; [done|]). split; [|done].
       simpl in Hexit. injection Hexit as Hexit.
       apply andb_false_iff in Hexit as [Hi|Hj].
       - left. apply Z.ltb_ge in Hi. rewrite HA12, length_app in Hi.
         destruct A2; [done|simpl in Hi; lia].
       - right. apply Z.ltb_ge in Hj. rewrite HB12, length_app in Hj.
         destruct B2; [done|simpl in Hj; lia]. }
  - exists [], [], A, [], B, T. simpl.
    repeat (split; [done || lia|]). split; [constructor|].
    intros x y Hx. by apply elem_of_nil in Hx.
  - simpl. lia.
  - intros [[[a i] j] k]
      (Mg & A1 & A2 & B1 & B2 & T' & -> & -> & -> & -> & HA12 & HB12
       & HT' & Hperm & Hsorted & Hbound).
    simpl. eexists. split; [done|].
    intros [Hi Hj]%andb_true_iff. apply Z.ltb_lt in Hi, Hj.
    destruct A2 as [|x A2]; [rewrite HA12, app_nil_r in Hi; lia|].
    destruct B2 as [|y B2]; [rewrite HB12, app_nil_r in Hj; lia|].
    destruct T' as [|t T']; [simpl in HT'; lia|].
    rewrite (load_middle A A1 A2 x) by done.
    rewrite (load_middle B B1 B2 y) by done. simpl.
    assert (StronglySorted Z.le (Mg ++ [x])) as Hsx.
    { apply StronglySorted_app_2; [|done|by repeat constructor].
      intros z ? Hz ->%list_elem_of_singleton. apply Hbound; [done|].
      apply list_elem_of_here. }
    assert (StronglySorted Z.le (Mg ++ [y])) as Hsy.
    { apply StronglySorted_app_2; [|done|by repeat constructor].
      intros z ? Hz ->%list_elem_of_singleton. apply Hbound; [done|].
      apply elem_of_app. right. apply list_elem_of_here. }
    assert (∀ z, z ∈ A2 → x ≤ z) as HxA.
    { intros z Hz. rewrite HA12 in HA.
      apply StronglySorted_app_1_r, StronglySorted_cons in HA as [HA _].
      rewrite Forall_forall in HA. by apply HA. }
    assert (∀ z, z ∈ B2 → y ≤ z) as HyB.
    { intros z Hz. rewrite HB12 in HB.
      apply StronglySorted_app_1_r, StronglySorted_cons in HB as [HB _].
      rewrite Forall_forall in HB. by apply HB. }
    destruct (Z.leb_spec x y) as [Hxy|Hxy].
    + rewrite (store_middle _ (P ++ Mg) (T' ++ S) t x); [|solve_list_eq|solve_len].
      simpl. eexists. split; [done|]. split.
      * exists (Mg ++ [x]), (A1 ++ [x]), A2, B1, (y :: B2), T'.
        split; [solve_list_eq|]. split; [solve_len|]. split; [done|].
        split; [solve_len|]. split; [rewrite HA12; solve_list_eq|].
        split; [done|]. split; [simpl in *; lia|].
        split; [rewrite Hperm; solve_Permutation|]. split; [done|].
        intros z w [Hz | ->%list_elem_of_singleton]%elem_of_app Hw.
        -- apply Hbound; [done|]. apply elem_of_app in Hw as [Hw|Hw].
           ++ apply elem_of_app. left. by apply list_elem_of_further.
           ++ apply elem_of_app. by right.
        -- apply elem_of_app in Hw as [Hw | [-> | Hw]%elem_of_cons];
             [by apply HxA|done|]. specialize (HyB w Hw). lia.
      * simpl. lia.
    + rewrite (store_middle _ (P ++ Mg) (T' ++ S) t y); [|solve_list_eq|solve_len].
      simpl. eexists. split; [done|]. split.
      * exists (Mg ++ [y]), A1, (x :: A2), (B1 ++ [y]), B2, T'.
        split; [solve_list_eq|]. split; [done|]. split; [solve_len|].
        split; [solve_len|]. split; [done|].
        split; [rewrite HB12; solve_list_eq|]. split; [simpl in *; lia|].
        split; [rewrite Hperm; solve_Permutation|]. split; [done|].
        intros z w [Hz | ->%list_elem_of_singleton]%elem_of_app Hw.
        -- apply Hbound; [done|]. apply elem_of_app in Hw as [Hw|Hw].
           ++ apply elem_of_app. by left.
           ++ apply elem_of_app. right. by apply list_elem_of_further.
        -- apply elem_of_app in Hw as [[-> | Hw]%elem_of_cons | Hw];
             [lia| |by apply HyB]. specialize (HxA w Hw). lia.
      * simpl. lia.
Qed.

(** [merge] on two adjacent ordered runs [A] and [B] of an array
    [P ++ A ++ B ++ S]. *)
Lemma merge_spec (arr P A B S : list Z) (l m r : Z) :
  arr = P ++ A ++ B ++ S →
  l = Z.of_nat (length P) → m = l + Z.of_nat (length A) - 1 →
  r = m + Z.of_nat (length B) →
  StronglySorted Z.le A → StronglySorted Z.le B →
  ∃ M, merge arr l m r = Some (P ++ M ++ S)
       ∧ StronglySorted Z.le M ∧ M ≡ₚ A ++ B.
Proof.
  intros Harr -> -> -> HA HB. unfold merge.
  replace (Z.of_nat (length P) + Z.of_nat (length A) - 1
           - Z.of_nat (length P) + 1) with (Z.of_nat (length A)) by lia.
  replace (Z.of_nat (length P) + Z.of_nat (length A) - 1
           + Z.of_nat (length B)
           - (Z.of_nat (length P) + Z.of_nat (length A) - 1))
    with (Z.of_nat (length B)) by lia.
  cbv zeta.
  destruct (Z.ltb_spec (Z.of_nat (length A)) 0); [lia|].
  destruct (Z.ltb_spec (Z.of_nat (length B)) 0); [lia|].
  cbn [orb]. rewrite !Nat2Z.id.
  rewrite (merge_copy_loop arr P A (B ++ S)) by done. bind_step.
  rewrite (merge_copy_loop arr (P ++ A) B S);
    [|subst arr; solve_list_eq|solve_len].
  bind_step. subst arr.
  destruct (merge_main_loop P A B (A ++ B) S HA HB)
    as (Mg & A1 & A2 & B1 & B2 & T' & Hmain & HA12 & HB12 & Hempty & HT'
        & Hperm & Hsorted & Hbound); [apply length_app|].
  replace (P ++ A ++ B ++ S) with (P ++ (A ++ B) ++ S) by solve_list_eq.
  rewrite Hmain. bind_step. clear Hmain.
  subst A B.
  rewrite (merge_drain_loop A2 _ P Mg (T' ++ S) A1);
    [|rewrite length_app; lia|rewrite length_app; lia].
  bind_step.
  rewrite (merge_drain_loop B2 _ P (Mg ++ A2) (drop (length A2) (T' ++ S)) B1);
    [|rewrite length_app; lia|rewrite length_drop, length_app; lia].
  bind_step.
  rewrite drop_drop, drop_app_length' by lia.
  exists ((Mg ++ A2) ++ B2). split; [done|]. split.
  - destruct Hempty as [-> | ->]; rewrite ?app_nil_r in *.
    + apply StronglySorted_app_2; [done|done|].
      by apply StronglySorted_app_1_r in HB.
    + apply StronglySorted_app_2; [done|done|].
      by apply StronglySorted_app_1_r in HA.
  - rewrite Hperm. solve_Permutation.
Qed.

Lemma StronglySorted_short (W : list Z) :
  (length W ≤ 1)%nat → StronglySorted Z.le W.
Proof.
  destruct W as [|x [|y W]]; simpl; intros; [by repeat constructor..|lia].
Qed.

Lemma mergeSortRecursive_spec (fuel : nat) : ∀ (arr P W S : list Z) (l r : Z),
  arr = P ++ W ++ S →
  l = Z.of_nat (length P) → r = l + Z.of_nat (length W) - 1 →
  (length W ≤ fuel)%nat →
  ∃ W', mergeSortRecursive fuel arr l r = Some (P ++ W' ++ S)
        ∧ StronglySorted Z.le W' ∧ W' ≡ₚ W.
Proof.
  induction fuel as [|fuel IH]; intros arr P W S l r -> -> -> Hfuel.
  - simpl. destruct (Z.ltb_spec (Z.of_nat (length P))
                       (Z.of_nat (length P) + Z.of_nat (length W) - 1)); [lia|].
    exists W. split; [done|]. split; [apply StronglySorted_short; lia|done].
  - simpl. destruct (Z.ltb_spec (Z.of_nat (length P))
                       (Z.of_nat (length P) + Z.of_nat (length W) - 1)) as [Hlt|];
      [|exists W; split; [done|]; split; [apply StronglySorted_short; lia|done]].
    replace (Z.of_nat (length P) + Z.of_nat (length W) - 1 - Z.of_nat (length P))
      with (Z.of_nat (length W) - 1) by lia.
    rewrite Z.quot_div_nonneg by lia.
    set (h := (Z.of_nat (length W) - 1) / 2).
    assert (0 ≤ h < Z.of_nat (length W) - 1) as Hh.
    { pose proof (Z.div_pos (Z.of_nat (length W) - 1) 2).
      pose proof (Z.div_lt (Z.of_nat (length W) - 1) 2). unfold h. lia. }
    set (W1 := take (Z.to_nat (h + 1)) W). set (W2 := drop (Z.to_nat (h + 1)) W).
    assert (W = W1 ++ W2) as HW by (symmetry; apply take_drop).
    assert (length W1 = Z.to_nat (h + 1)) as HW1
      by (unfold W1; rewrite length_take; lia).
    assert (length W2 = (length W - Z.to_nat (h + 1))%nat) as HW2
      by (unfold W2; rewrite length_drop; lia).
    destruct (IH (P ++ W ++ S) P W1 (W2 ++ S) (Z.of_nat (length P))
                (Z.of_nat (length P) + h))
      as (W1' & -> & HS1 & HP1); [rewrite HW; solve_list_eq|done|lia|lia|].
    bind_step.
    assert (length W1' = length W1) as HW1' by (by rewrite HP1).
    destruct (IH (P ++ W1' ++ W2 ++ S) (P ++ W1') W2 S
                (Z.of_nat (length P) + h + 1)
                (Z.of_nat (length P) + Z.of_nat (length W) - 1))
      as (W2' & -> & HS2 & HP2); [solve_list_eq|solve_len|solve_len|lia|].
    bind_step.
    assert (length W2' = length W2) as HW2' by (by rewrite HP2).
    destruct (merge_spec ((P ++ W1') ++ W2' ++ S) P W1' W2' S
                (Z.of_nat (length P)) (Z.of_nat (length P) + h)
                (Z.of_nat (length P) + Z.of_nat (length W) - 1))
      as (M & -> & HSM & HPM); [solve_list_eq|done|lia|lia|done|done|].
    exists M. split; [done|]. split; [done|].
    by rewrite HPM, HP1, HP2, HW.
Qed.

(** X3.  [mergeSort] on the range that [W] occupies in [P ++ W ++ S]: the call
    returns, [W] is replaced by an ordered permutation of itself, and [P]
    and [S] are left as they are. *)
Theorem mergeSort_sorts (P W S : list Z) :
  ∃ W', mergeSort (P ++ W ++ S) (Z.of_nat (length P))
          (Z.of_nat (length P + length W) - 1)
        = Some (P ++ W' ++ S)
        ∧ Sorted Z.le W' ∧ W' ≡ₚ W.
Proof.
  unfold mergeSort.
  destruct (mergeSortRecursive_spec
              (Z.to_nat (Z.of_nat (length P + length W) - 1
                         - Z.of_nat (length P) + 1))
              (P ++ W ++ S) P W S (Z.of_nat (length P))
              (Z.of_nat (length P + length W) - 1))
    as (W' & -> & HS & HP); [done|done|lia|lia|].
  exists W'. split; [done|]. split; [by apply StronglySorted_Sorted|done].
Qed.

(** *** Quicksort *)

Lemma swap_same (arr A C : list Z) (x i j : Z) :
  arr = A ++ x :: C → i = Z.of_nat (length A) → j = Z.of_nat (length A) →
  swap arr i j = Some arr.
Proof.
  intros Harr Hi ->. rewrite <- Hi. unfold swap.
  rewrite (load_middle arr A C x) by done. bind_step.
  rewrite (store_middle arr A C x x) by done. bind_step.
  rewrite (store_middle _ A C x x) by done. by subst arr.
Qed.

Lemma swap_distinct (arr A B C : list Z) (x y i j : Z) :
  arr = A ++ x :: B ++ y :: C →
  i = Z.of_nat (length A) → j = Z.of_nat (length A + 1 + length B) →
  swap arr i j = Some (A ++ y :: B ++ x :: C).
Proof.
  intros Harr Hi Hj. unfold swap.
  rewrite (load_middle arr A (B ++ y :: C) x i) by done. bind_step.
  rewrite (load_middle arr (A ++ x :: B) C y j);
    [|subst arr; solve_list_eq|solve_len].
  bind_step.
  rewrite (store_middle arr A (B ++ y :: C) x y i) by done. bind_step.
  rewrite (store_middle _ (A ++ y :: B) C y x j); [|solve_list_eq|solve_len].
  f_equal. solve_list_eq.
Qed.

(** [partition] on a range [W ++ [pivot]] of [P ++ W ++ pivot :: S]: the
    elements below the pivot, the pivot at the returned index, the
    others. *)
Lemma partition_spec (arr P W S : list Z) (pivot low high : Z) :
  arr = P ++ W ++ pivot :: S →
  low = Z.of_nat (length P) → high = low + Z.of_nat (length W) →
  ∃ Lo Hi,
    partition arr low high
    = Some (P ++ Lo ++ pivot :: Hi ++ S, low + Z.of_nat (length Lo))
    ∧ Forall (λ v, v < pivot) Lo ∧ Forall (λ v, pivot ≤ v) Hi
    ∧ Lo ++ Hi ≡ₚ W.
Proof.
  intros -> -> ->. unfold partition.
  rewrite (load_middle _ (P ++ W) S pivot); [|solve_list_eq|solve_len].
  bind_step. rewrite for_le_for_lt.
  replace (Z.of_nat (length P) + Z.of_nat (length W) - 1 + 1)
    with (Z.of_nat (length P) + Z.of_nat (length W)) by lia.
  run_for_lt (λ j '(a, i), ∃ Lo Hi Un,
    a = P ++ Lo ++ Hi ++ Un ++ pivot :: S
    ∧ i = Z.of_nat (length P) + Z.of_nat (length Lo) - 1
    ∧ j = Z.of_nat (length P) + Z.of_nat (length Lo) + Z.of_nat (length Hi)
    ∧ Lo ++ Hi ++ Un ≡ₚ W
    ∧ Forall (λ v, v < pivot) Lo ∧ Forall (λ v, pivot ≤ v) Hi).
  - lia.
  - exists [], [], W. simpl. repeat (split; [done || lia|]). done.
  - intros j [a i] Hj (Lo & Hi & Un & -> & -> & -> & Hperm & HLo & HHi).
    pose proof (Permutation_length Hperm) as Hlen.
    rewrite !length_app in Hlen.
    destruct Un as [|x Un]; [simpl in Hlen; lia|].
    rewrite (load_middle _ (P ++ Lo ++ Hi) (Un ++ pivot :: S) x);
      [|solve_list_eq|solve_len].
    bind_step. destruct (Z.ltb_spec x pivot) as [Hx|Hx].
    + destruct Hi as [|h Hi].
      * rewrite (swap_same _ (P ++ Lo) (Un ++ pivot :: S) x);
          [|solve_list_eq|solve_len|solve_len].
        bind_step. eexists. split; [done|].
        exists (Lo ++ [x]), [], Un. split; [solve_list_eq|].
        split; [solve_len|]. split; [solve_len|].
        split; [rewrite <- Hperm; solve_Permutation|].
        split; [|done]. apply Forall_app. split; [done|]. by repeat constructor.
      * rewrite (swap_distinct _ (P ++ Lo) Hi (Un ++ pivot :: S) h x);
          [|solve_list_eq|solve_len|solve_len].
        bind_step. eexists. split; [done|].
        exists (Lo ++ [x]), (Hi ++ [h]), Un. split; [solve_list_eq|].
        split; [solve_len|]. split; [solve_len|].
        split; [rewrite <- Hperm; solve_Permutation|].
        apply Forall_cons in HHi as [Hh HHi].
        split; apply Forall_app; split; done || by repeat constructor.
    + eexists. split; [done|].
      exists Lo, (Hi ++ [x]), Un. split; [solve_list_eq|].
      split; [done|]. split; [solve_len|].
      split; [rewrite <- Hperm; solve_Permutation|].
      split; [done|]. apply Forall_app. split; [done|].
      repeat constructor. lia.
  - destruct s as [a i].
    destruct HP as (Lo & Hi & Un & -> & -> & Hj & Hperm & HLo & HHi).
    pose proof (Permutation_length Hperm) as Hlen.
    rewrite !length_app in Hlen.
    assert (Un = []) as -> by (destruct Un; [done|simpl in Hlen; lia]).
    rewrite app_nil_r in Hperm. simpl.
    destruct Hi as [|h Hi].
    + rewrite (swap_same _ (P ++ Lo) S pivot);
        [|solve_list_eq|solve_len|simpl in *; solve_len].
      bind_step. exists Lo, []. split; [do 2 f_equal; lia|done].
    + rewrite (swap_distinct _ (P ++ Lo) Hi S h pivot);
        [|solve_list_eq|solve_len|simpl in *; solve_len].
      bind_step. exists Lo, (Hi ++ [h]).
      split; [do 2 f_equal; [solve_list_eq|lia]|]. split; [done|].
      apply Forall_cons in HHi as [Hh HHi].
      split; [apply Forall_app; split; done || by repeat constructor|].
      rewrite <- Hperm. solve_Permutation.
Qed.

Lemma quickSortRecursive_spec (fuel : nat) :
  ∀ (arr P W S : list Z) (low high : Z),
  arr = P ++ W ++ S →
  low = Z.of_nat (length P) → high = low + Z.of_nat (length W) - 1 →
  (length W ≤ fuel)%nat →
  ∃ W', quickSortRecursive fuel arr low high = Some (P ++ W' ++ S)
        ∧ StronglySorted Z.le W' ∧ W' ≡ₚ W.
Proof.
  induction fuel as [|fuel IH]; intros arr P W S low high -> -> -> Hfuel.
  - simpl. destruct (Z.ltb_spec (Z.of_nat (length P))
                       (Z.of_nat (length P) + Z.of_nat (length W) - 1)); [lia|].
    exists W. split; [done|]. split; [apply StronglySorted_short; lia|done].
  - simpl. destruct (Z.ltb_spec (Z.of_nat (length P))
                       (Z.of_nat (length P) + Z.of_nat (length W) - 1)) as [Hlt|];
      [|exists W; split; [done|]; split; [apply StronglySorted_short; lia|done]].
    destruct (_ <? INSERTION_SORT_THRESHOLD).
    { by apply insertionSort_spec. }
    destruct (list_snoc_cases W) as [->|(W0 & pivot & ->)]; [simpl in Hlt; lia|].
    rewrite length_app in Hfuel, Hlt. simpl in Hfuel, Hlt.
    destruct (partition_spec (P ++ (W0 ++ [pivot]) ++ S) P W0 S pivot
                (Z.of_nat (length P))
                (Z.of_nat (length P) + Z.of_nat (length (W0 ++ [pivot])) - 1))
      as (Lo & Hi & -> & HLo & HHi & Hperm); [solve_list_eq|done|solve_len|].
    bind_step.
    pose proof (Permutation_length Hperm) as Hlen. rewrite length_app in Hlen.
    destruct (IH (P ++ Lo ++ pivot :: Hi ++ S) P Lo (pivot :: Hi ++ S)
                (Z.of_nat (length P))
                (Z.of_nat (length P) + Z.of_nat (length Lo) - 1))
      as (Lo' & -> & HSLo & HPLo); [done|done|done|lia|].
    bind_step.
    assert (length Lo' = length Lo) as HlenLo by (by rewrite HPLo).
    destruct (IH (P ++ Lo' ++ pivot :: Hi ++ S) (P ++ Lo' ++ [pivot]) Hi S
                (Z.of_nat (length P) + Z.of_nat (length Lo) + 1)
                (Z.of_nat (length P) + Z.of_nat (length (W0 ++ [pivot])) - 1))
      as (Hi' & -> & HSHi & HPHi); [solve_list_eq|solve_len|solve_len|lia|].
    exists (Lo' ++ pivot :: Hi'). split; [f_equal; solve_list_eq|]. split.
    + apply StronglySorted_app_2; [|done|].
      * intros x y Hx Hy. rewrite HPLo in Hx.
        rewrite Forall_forall in HLo. specialize (HLo x Hx).
        apply elem_of_cons in Hy as [->|Hy]; [lia|].
        rewrite HPHi in Hy. rewrite Forall_forall in HHi.
        specialize (HHi y Hy). lia.
      * constructor; [done|]. by rewrite HPHi.
    + rewrite HPLo, HPHi, <- Hperm. solve_Permutation.
Qed.

(** X5.  [quickSort] on the range that [W] occupies in [P ++ W ++ S]: the call
    returns (the recursion on partitions ends), [W] is replaced by an
    ordered permutation of itself, and [P] and [S] are left as they
    are. *)
Theorem quickSort_sorts (P W S : list Z) :
  ∃ W', quickSort (P ++ W ++ S) (Z.of_nat (length P))
          (Z.of_nat (length P + length W) - 1)
        = Some (P ++ W' ++ S)
        ∧ Sorted Z.le W' ∧ W' ≡ₚ W.
Proof.
  unfold quickSort.
  destruct (quickSortRecursive_spec
              (Z.to_nat (Z.of_nat (length P + length W) - 1
                         - Z.of_nat (length P) + 1))
              (P ++ W ++ S) P W S (Z.of_nat (length P))
              (Z.of_nat (length P + length W) - 1))
    as (W' & -> & HS & HP); [done|done|lia|lia|].
  exists W'. split; [done|]. split; [by apply StronglySorted_Sorted|done].
Qed.

(** X4.  [partition] on the range that [W ++ [pivot]] occupies: the pivot goes
    to the returned index, everything before it in the range is smaller,
    everything after it is at least the pivot, and the range keeps its
    elements. *)
Theorem partition_splits (P W S : list Z) (pivot : Z) :
  ∃ Lo Hi,
    partition (P ++ W ++ pivot :: S) (Z.of_nat (length P))
      (Z.of_nat (length P + length W))
    = Some (P ++ Lo ++ pivot :: Hi ++ S, Z.of_nat (length P + length Lo))
    ∧ Forall (λ v, v < pivot) Lo ∧ Forall (λ v, pivot ≤ v) Hi
    ∧ Lo ++ Hi ≡ₚ W.
Proof.
  destruct (partition_spec (P ++ W ++ pivot :: S) P W S pivot
              (Z.of_nat (length P)) (Z.of_nat (length P + length W)))
    as (Lo & Hi & Hrun & H); [done|done|lia|].
  exists Lo, Hi. rewrite Hrun. split; [do 2 f_equal; lia|done].
Qed.

(** X2.  [merge] on two adjacent ordered runs [A] and [B]: they are replaced by
    one ordered run with the elements of both. *)
Theorem merge_merges (P A B S : list Z) :
  Sorted Z.le A → Sorted Z.le B →
  ∃ M, merge (P ++ A ++ B ++ S) (Z.of_nat (length P))
         (Z.of_nat (length P + length A) - 1)
         (Z.of_nat (length P + length A + length B) - 1)
       = Some (P ++ M ++ S)
       ∧ Sorted Z.le M ∧ M ≡ₚ A ++ B.
Proof.
  intros HA HB.
  destruct (merge_spec (P ++ A ++ B ++ S) P A B S (Z.of_nat (length P))
              (Z.of_nat (length P + length A) - 1)
              (Z.of_nat (length P + length A + length B) - 1))
    as (M & Hrun & HS & HP); [done|done|lia|lia| | |].
  - apply Sorted_StronglySorted; [|done]. intros x y z. apply Z.le_trans.
  - apply Sorted_StronglySorted; [|done]. intros x y z. apply Z.le_trans.
  - exists M. split; [done|]. split; [by apply StronglySorted_Sorted|done].
Qed.

Lemma merge_merges_witness :
  (Sorted Z.le [2; 5; 9] ∧ Sorted Z.le [1; 5; 7; 8])
  ∧ ∃ M, merge ([40] ++ [2; 5; 9] ++ [1; 5; 7; 8] ++ [-3])
           (Z.of_nat (length [40]))
           (Z.of_nat (length [40] + length [2; 5; 9]) - 1)
           (Z.of_nat (length [40] + length [2; 5; 9] + length [1; 5; 7; 8]) - 1)
         = Some ([40] ++ M ++ [-3])
         ∧ Sorted Z.le M ∧ M ≡ₚ [2; 5; 9] ++ [1; 5; 7; 8].
Proof.
  assert (Sorted Z.le [2; 5; 9]) as H1 by (repeat constructor; lia).
  assert (Sorted Z.le [1; 5; 7; 8]) as H2 by (repeat constructor; lia).
  split; [by split|]. exact (merge_merges [40] [2; 5; 9] [1; 5; 7; 8] [-3] H1 H2).
Defined.

(** ** The analysis engine, completely *)

Lemma length_qsort_insert cmp x l :
  length (qsort_insert cmp x l) = S (length l).
Proof.
  induction l as [|y l IH]; simpl; [done|].
  destruct (cmp x y <=? 0); simpl; by rewrite ?IH.
Qed.

Lemma length_qsort cmp l : length (qsort cmp l) = length l.
Proof.
  induction l as [|x l IH]; simpl; [done|].
  by rewrite length_qsort_insert, IH.
Qed.

Lemma count_unique_total (sample_copy : list Z) (s : Z) :
  s ≤ Z.of_nat (length sample_copy) →
  ∃ u, count_unique sample_copy s = Some u.
Proof.
  intros Hs. unfold count_unique.
  destruct (Z.le_gt_cases s 1) as [Hle|Hgt].
  { rewrite for_lt_empty by lia. eauto. }
  run_for_lt (λ (_ : Z) (_ : Z), True).
  - lia.
  - done.
  - intros i u Hi _.
    destruct (load_in_range sample_copy i) as [a ->]; [lia|].
    destruct (load_in_range sample_copy (i - 1)) as [b ->]; [lia|].
    simpl. eauto.
  - eauto.
Qed.

(** The answer of [analyzeData] on a sample that lies inside the array, by
    the tests of the code: the sorting of the copy and the count of unique
    values always succeed, and do not change the answer. *)
Lemma analyzeData_branches (arr : list Z) (n : Z) :
  1 ≤ sample_size_of n ≤ Z.of_nat (length arr) →
  analyzeData arr n
  = Some (if nearly_sorted (ascending_pairs_of (sample arr n))
               (sample_size_of n)
          then STRATEGY_MERGESORT
          else if has_negative_of (take (Z.to_nat (sample_size_of n - 1)) arr)
               then STRATEGY_QUICKSORT
               else STRATEGY_RADIXSORT).
Proof.
  intros [Hs Hlen]. unfold analyzeData.
  pose proof (sample_size_of_le n) as Hle.
  rewrite analyze_scan_spec by (unfold INT_MAX; lia). bind_step.
  fold (sample arr n).
  assert (length (sample arr n) = Z.to_nat (sample_size_of n)) as Hl.
  { unfold sample. rewrite length_take. lia. }
  destruct (nearly_sorted _ _); [done|].
  destruct (has_negative_of _); simpl; [|done].
  destruct (count_unique_total (qsort compareInts (sample arr n))
              (sample_size_of n)) as [u ->].
  { rewrite length_qsort. lia. }
  simpl. by destruct (low_cardinality _ _).
Qed.

(** X13.  The answer of [analyzeData] on a sample that lies inside the array,
    with [s = min(n, 100)] the sample size: [STRATEGY_MERGESORT] when
    [s >= 2] and at least 17/20 (that is 0.85) of the [s - 1] adjacent
    pairs of the sample ascend; otherwise [STRATEGY_RADIXSORT] when none
    of the first [s - 1] sample elements is negative; otherwise
    [STRATEGY_QUICKSORT].  The cardinality test of heuristic 3 has no
    influence on the answer. *)
Theorem analyzeData_decision (arr : list Z) (n : Z) :
  1 ≤ sample_size_of n ≤ Z.of_nat (length arr) →
  analyzeData arr n
  = Some (if (2 <=? sample_size_of n)
             && (17 * (sample_size_of n - 1)
                 <=? 20 * ascending_pairs_of (sample arr n))
          then STRATEGY_MERGESORT
          else if has_negative_of (take (Z.to_nat (sample_size_of n - 1)) arr)
               then STRATEGY_QUICKSORT
               else STRATEGY_RADIXSORT).
Proof.
  intros Hs. rewrite (analyzeData_branches arr n Hs). destruct Hs as [Hs Hlen].
  pose proof (sample_size_of_le n) as Hle.
  assert (length (sample arr n) = Z.to_nat (sample_size_of n)) as Hl.
  { unfold sample. rewrite length_take. lia. }
  assert
    (nearly_sorted (ascending_pairs_of (sample arr n)) (sample_size_of n)
     = (2 <=? sample_size_of n)
       && (17 * (sample_size_of n - 1)
           <=? 20 * ascending_pairs_of (sample arr n))) as ->.
  { destruct (Z.leb_spec 2 (sample_size_of n)) as [H2|H2].
    - destruct (ascending_pairs_of_bounds (sample arr n)) as [Hb|Hnil];
        [|rewrite Hnil in Hl; simpl in Hl; lia].
      by rewrite nearly_sorted_exact by lia.
    - assert (sample_size_of n = 1) as Hs1 by lia.
      destruct (sample arr n) as [|a [|b t]] eqn:E;
        simpl in Hl; try lia.
      rewrite Hs1. reflexivity. }
  done.
Qed.

Lemma analyzeData_decision_witness :
  (1 ≤ sample_size_of 13 ≤ Z.of_nat (length random_data_demo))
  ∧ analyzeData random_data_demo 13 = Some STRATEGY_QUICKSORT.
Proof.
  assert (1 ≤ sample_size_of 13 ≤ Z.of_nat (length random_data_demo)) as H
    by (vm_compute; split; discriminate).
  split; [exact H|].
  exact (analyzeData_decision random_data_demo 13 H).
Defined.

Lemma analyzeData_radix_signs_witness :
  (1 ≤ sample_size_of 8
   ∧ sample_size_of 8 ≤ Z.of_nat (length positive_ints_demo)
   ∧ analyzeData positive_ints_demo 8 = Some STRATEGY_RADIXSORT)
  ∧ Forall (λ v, 0 ≤ v)
      (take (Z.to_nat (sample_size_of 8 - 1)) positive_ints_demo).
Proof.
  assert (1 ≤ sample_size_of 8) as H1 by (vm_compute; discriminate).
  assert (sample_size_of 8 ≤ Z.of_nat (length positive_ints_demo)) as H2
    by (vm_compute; discriminate).
  assert (analyzeData positive_ints_demo 8 = Some STRATEGY_RADIXSORT) as H3
    by reflexivity.
  split; [done|]. exact (analyzeData_radix_signs positive_ints_demo 8 H1 H2 H3).
Defined.

(** A loop in which some iteration fails whatever the state it starts
    from. *)
Lemma iterate_fault {St : Type} (k : nat) (i step : Z)
    (body : Z → St → option St) (s : St) (t : nat) :
  (t < k)%nat → (∀ s, body (i + Z.of_nat t * step) s = None) →
  iterate k i step body s = None.
Proof.
  revert i s t. induction k as [|k IH]; intros i s t Ht Hfault; [lia|].
  simpl. destruct t as [|t].
  - specialize (Hfault s). replace (i + Z.of_nat 0 * step) with i in Hfault by lia.
    by rewrite Hfault.
  - destruct (body i s) as [s'|]; [|done]. simpl.
    apply (IH _ _ t); [lia|]. intros s0.
    replace (i + step + Z.of_nat t * step) with (i + Z.of_nat (S t) * step)
      by lia.
    apply Hfault.
Qed.

Lemma load_out_of_range (arr : list Z) (i : Z) :
  Z.of_nat (length arr) ≤ i → load arr i = None.
Proof.
  intros Hi. unfold load. destruct (Z.leb_spec 0 i); [|done].
  apply lookup_ge_None. lia.
Qed.

(** X15.  Asked for a sample that is longer than the array, [analyzeData] reads
    past the end of the array. *)
Theorem analyzeData_out_of_bounds (arr : list Z) (n : Z) :
  2 ≤ sample_size_of n → Z.of_nat (length arr) < sample_size_of n →
  analyzeData arr n = None.
Proof.
  intros Hs Hlen. unfold analyzeData, analyze_scan, for_lt.
  pose proof (sample_size_of_le n) as Hle.
  rewrite wrap_id by (unfold INT_MIN, INT_MAX; lia).
  rewrite (iterate_fault _ _ _ _ _ (Nat.pred (length arr))); [done|lia|].
  intros [hn ap].
  destruct arr as [|a arr]; [done|].
  simpl Nat.pred. rewrite Z.mul_1_r, Z.add_0_l.
  destruct (load_in_range (a :: arr) (Z.of_nat (length arr))) as [v ->];
    [simpl; lia|].
  simpl. rewrite load_out_of_range by (simpl; lia). done.
Qed.

Lemma analyzeData_out_of_bounds_witness :
  (2 ≤ sample_size_of 8 ∧ Z.of_nat (length small_array_demo) < sample_size_of 8)
  ∧ analyzeData small_array_demo 8 = None.
Proof.
  assert (2 ≤ sample_size_of 8) as H1 by (vm_compute; discriminate).
  assert (Z.of_nat (length small_array_demo) < sample_size_of 8) as H2
    by reflexivity.
  split; [done|]. exact (analyzeData_out_of_bounds small_array_demo 8 H1 H2).
Defined.

(** ** The dispatcher on whole arrays *)

Lemma sample_size_of_min n :
  sample_size_of n = Z.min n ANALYSIS_SAMPLE_SIZE.
Proof.
  unfold sample_size_of, ANALYSIS_SAMPLE_SIZE. destruct (Z.ltb_spec n 100); lia.
Qed.

(** The dispatcher on the first [n] elements [W] of [W ++ S], branch by
    branch. *)
Lemma adaptiveHybridSort_spec (W S : list Z) :
  Z.of_nat (length W) < INSERTION_SORT_THRESHOLD
  ∨ analyzeData (W ++ S) (Z.of_nat (length W)) ≠ Some STRATEGY_RADIXSORT
  ∨ Forall (λ v, 0 ≤ v ≤ INT_MAX) W →
  ∃ W', adaptiveHybridSort (W ++ S) (Z.of_nat (length W)) = Some (W' ++ S)
        ∧ StronglySorted Z.le W' ∧ W' ≡ₚ W.
Proof.
  intros Hcase. unfold adaptiveHybridSort.
  destruct (Z.leb_spec (Z.of_nat (length W)) 1) as [H1|H1].
  { exists W. split; [done|]. split; [|done].
    apply StronglySorted_short. lia. }
  destruct (Z.ltb_spec (Z.of_nat (length W)) INSERTION_SORT_THRESHOLD)
    as [H32|H32].
  { destruct (insertionSort_spec (W ++ S) [] W S 0 (Z.of_nat (length W) - 1))
      as (W' & Hrun & HS & HP); [done|done|lia|].
    exists W'. split; [exact Hrun|done]. }
  unfold INSERTION_SORT_THRESHOLD in *.
  assert (1 ≤ sample_size_of (Z.of_nat (length W))
          ≤ Z.of_nat (length (W ++ S))) as Hs.
  { rewrite sample_size_of_min, length_app. unfold ANALYSIS_SAMPLE_SIZE. lia. }
  rewrite (analyzeData_branches _ _ Hs) in *.
  destruct (nearly_sorted _ _).
  { destruct (mergeSortRecursive_spec
                (Z.to_nat (Z.of_nat (length W) - 1 - 0 + 1))
                (W ++ S) [] W S 0 (Z.of_nat (length W) - 1))
      as (W' & Hrun & HS & HP); [done|done|lia|lia|].
    exists W'. split; [exact Hrun|done]. }
  destruct (has_negative_of _).
  { destruct (quickSortRecursive_spec
                (Z.to_nat (Z.of_nat (length W) - 1 - 0 + 1))
                (W ++ S) [] W S 0 (Z.of_nat (length W) - 1))
      as (W' & Hrun & HS & HP); [done|done|lia|lia|].
    exists W'. split; [exact Hrun|done]. }
  destruct Hcase as [?|[?|Hval]]; [lia|done|]. bind_step.
  destruct (radixSort_run_spec (W ++ S) (Z.of_nat (length W)))
    as (m & k & _ & Hrun & _ & Hperm & Hsorted & _).
  - rewrite length_app. lia.
  - by rewrite Nat2Z.id, take_app_length.
  - unfold radixSort. rewrite Hrun.
    rewrite Nat2Z.id, take_app_length, drop_app_length in *.
    eexists. split; [reflexivity|]. split; [exact Hsorted|exact Hperm].
Qed.



Lemma ascending_pairs_of_sorted (l : list Z) :
  Sorted Z.le l → l ≠ [] →
  ascending_pairs_of l = Z.of_nat (length l) - 1.
Proof.
  induction 1 as [|x l Hl IH Hx]; [done|]. intros _.
  destruct l as [|y l]; [done|].
  change (ascending_pairs_of (x :: y :: l))
    with ((if x <=? y then 1 else 0) + ascending_pairs_of (y :: l)).
  rewrite IH by done. apply HdRel_inv in Hx.
  destruct (Z.leb_spec x y); [|lia]. simpl length. lia.
Qed.

Lemma Sorted_take (l : list Z) (k : nat) :
  Sorted Z.le l → Sorted Z.le (take k l).
Proof.
  intros Hl. apply StronglySorted_Sorted.
  apply Sorted_StronglySorted in Hl; [|intros x y z; apply Z.le_trans].
  rewrite <- (take_drop k l) in Hl. by apply StronglySorted_app_1_l in Hl.
Qed.

(** A range in order, of [INSERTION_SORT_THRESHOLD] elements or more,
    passes the sortedness test. *)
Lemma analyzeData_sorted_sample (W S : list Z) :
  Sorted Z.le W → INSERTION_SORT_THRESHOLD ≤ Z.of_nat (length W) →
  analyzeData (W ++ S) (Z.of_nat (length W)) = Some STRATEGY_MERGESORT.
Proof.
  unfold INSERTION_SORT_THRESHOLD. intros HW H32.
  assert (1 ≤ sample_size_of (Z.of_nat (length W))
          ≤ Z.of_nat (length (W ++ S))) as Hs.
  { rewrite sample_size_of_min, length_app. unfold ANALYSIS_SAMPLE_SIZE. lia. }
  rewrite (analyzeData_branches _ _ Hs).
  assert (2 ≤ sample_size_of (Z.of_nat (length W)) ≤ Z.of_nat (length W)) as Hs2.
  { rewrite sample_size_of_min. unfold ANALYSIS_SAMPLE_SIZE. lia. }
  pose proof (sample_size_of_le (Z.of_nat (length W))) as Hle.
  assert (sample (W ++ S) (Z.of_nat (length W))
          = take (Z.to_nat (sample_size_of (Z.of_nat (length W)))) W) as ->.
  { unfold sample. apply take_app_le. lia. }
  rewrite ascending_pairs_of_sorted.
  - rewrite length_take, nearly_sorted_exact by lia.
    destruct (Z.leb_spec (17 * (sample_size_of (Z.of_nat (length W)) - 1))
                (20 * (Z.of_nat (Z.to_nat (sample_size_of (Z.of_nat (length W)))
                                 `min` length W) - 1))); [done|lia].
  - by apply Sorted_take.
  - intros Hnil. apply (f_equal length) in Hnil.
    rewrite length_take in Hnil. simpl in Hnil. lia.
Qed.

(** The dispatcher leaves a range in order as it is. *)
Lemma adaptiveHybridSort_fixed (W S : list Z) :
  Sorted Z.le W →
  adaptiveHybridSort (W ++ S) (Z.of_nat (length W)) = Some (W ++ S).
Proof.
  intros HW.
  destruct (adaptiveHybridSort_spec W S) as (W' & Hrun & HS & HP).
  { destruct (Z.lt_ge_cases (Z.of_nat (length W)) INSERTION_SORT_THRESHOLD);
      [by left|right; left].
    rewrite analyzeData_sorted_sample by done. discriminate. }
  rewrite Hrun. do 2 f_equal. apply StronglySorted_Sorted in HS.
  by apply (Sorted_unique Z.le).
Qed.

(** X17.  An array whose first [n] elements are already in order is returned
    as it is, whatever their signs; from [INSERTION_SORT_THRESHOLD]
    elements on it is sent to [mergeSort]. *)
Theorem adaptiveHybridSort_sorted_input (W S : list Z) :
  Sorted Z.le W →
  adaptiveHybridSort (W ++ S) (Z.of_nat (length W)) = Some (W ++ S)
  ∧ (INSERTION_SORT_THRESHOLD ≤ Z.of_nat (length W) →
     analyzeData (W ++ S) (Z.of_nat (length W)) = Some STRATEGY_MERGESORT).
Proof.
  intros HW. split.
  - by apply adaptiveHybridSort_fixed.
  - by apply analyzeData_sorted_sample.
Qed.

Lemma adaptiveHybridSort_sorted_input_witness :
  Sorted Z.le [-4; -4; 0; 3]
  ∧ adaptiveHybridSort ([-4; -4; 0; 3] ++ [9; 1])
      (Z.of_nat (length [-4; -4; 0; 3]))
    = Some ([-4; -4; 0; 3] ++ [9; 1]).
Proof.
  assert (Sorted Z.le [-4; -4; 0; 3]) as H by (repeat constructor; lia).
  split; [exact H|].
  exact (proj1 (adaptiveHybridSort_sorted_input [-4; -4; 0; 3] [9; 1] H)).
Defined.



(** ** Radix sort outside its precondition *)

(** X6.  [getMax] on [n >= 1] elements inside the array returns one of the
    first [n] elements, and none of them is larger. *)
Theorem getMax_maximum (arr : list Z) (n : Z) :
  1 ≤ n ≤ Z.of_nat (length arr) →
  ∃ m, getMax arr n = Some m
       ∧ m ∈ take (Z.to_nat n) arr
       ∧ Forall (λ v, v ≤ m) (take (Z.to_nat n) arr).
Proof. apply getMax_spec. Qed.

Lemma getMax_maximum_witness :
  1 ≤ 13 ≤ Z.of_nat (length random_data_demo)
  ∧ ∃ m, getMax random_data_demo 13 = Some m
         ∧ m ∈ take (Z.to_nat 13) random_data_demo
         ∧ Forall (λ v, v ≤ m) (take (Z.to_nat 13) random_data_demo).
Proof.
  assert (1 ≤ 13 ≤ Z.of_nat (length random_data_demo)) as H by (simpl; lia).
  split; [exact H|]. exact (getMax_maximum random_data_demo 13 H).
Defined.

Lemma int_div_1 (a : Z) : int_div a 1 = Some a.
Proof.
  unfold int_div. change (1 =? 0) with false. change (1 =? -1) with false.
  rewrite andb_false_r. simpl. by rewrite Z.quot_1_r.
Qed.

(** The loop of [countingSortForRadix] that counts the digits stops at the
    first element whose digit is negative or undefined. *)
Lemma countingSortForRadix_fault (arr : list Z) (n exp i v : Z) :
  0 ≤ i < n → load arr i = Some v →
  (∀ d, digit exp v = Some d → d < 0) →
  countingSortForRadix arr n exp = None.
Proof.
  intros Hi Hv Hd. unfold countingSortForRadix.
  destruct (Z.ltb_spec n 0); [lia|].
  match goal with
  | |- ?loop ≫= _ = None => assert (loop = None) as ->; [|done]
  end.
  unfold for_lt. apply (iterate_fault _ _ _ _ _ (Z.to_nat i)); [lia|].
  intros count. replace (0 + Z.of_nat (Z.to_nat i) * 1) with i by lia.
  rewrite Hv. bind_step. destruct (digit exp v) as [d|] eqn:E; [|done].
  bind_step. specialize (Hd d eq_refl). unfold load.
  by destruct (Z.leb_spec 0 d); [lia|].
Qed.

(** The last digit of a negative value that is not a multiple of ten. *)
Lemma digit_1_negative (v : Z) :
  v < 0 → Z.rem v 10 ≠ 0 → ∀ d, digit 1 v = Some d → d < 0.
Proof.
  intros Hneg Hrem d. unfold digit. rewrite int_div_1. simpl.
  intros [= <-]. pose proof (Z.rem_nonpos v 10 ltac:(lia) ltac:(lia)). lia.
Qed.

(** [radixSort] with a positive maximum makes a first pass, with [exp = 1]. *)
Lemma radixSort_first_pass_fault (arr : list Z) (n m i v : Z) :
  getMax arr n = Some m → 0 < m →
  0 ≤ i < n → load arr i = Some v →
  (∀ d, digit 1 v = Some d → d < 0) →
  radixSort arr n = None.
Proof.
  intros Hmax Hm Hi Hv Hd.
  unfold radixSort, radixSort_run. rewrite Hmax. bind_step.
  unfold RADIX_FUEL. simpl while.
  rewrite int_div_1.
  bind_step. destruct (Z.gtb_spec m 0); [|lia].
  by rewrite (countingSortForRadix_fault arr n 1 i v).
Qed.

(** X10.  A counting pass over a range that holds a value whose digit
    [(v / exp) % 10] is negative, or undefined, indexes [count] out of
    its bounds (or divides by zero): undefined behaviour. *)
Theorem countingSortForRadix_negative_digit (arr : list Z) (n exp i v : Z) :
  0 ≤ i < n → load arr i = Some v →
  (∀ d, digit exp v = Some d → d < 0) →
  countingSortForRadix arr n exp = None.
Proof.
  intros Hi Hv Hd. by apply (countingSortForRadix_fault arr n exp i v).
Qed.

Lemma countingSortForRadix_negative_digit_witness :
  (0 ≤ 2 < 3 ∧ load [5; 3; -7] 2 = Some (-7)
   ∧ ∀ d, digit 1 (-7) = Some d → d < 0)
  ∧ countingSortForRadix [5; 3; -7] 3 1 = None.
Proof.
  assert (0 ≤ 2 < 3) as H1 by lia.
  assert (load [5; 3; -7] 2 = Some (-7)) as H2 by reflexivity.
  assert (∀ d, digit 1 (-7) = Some d → d < 0) as H3.
  { intros d Hd. vm_compute in Hd. injection Hd as <-. reflexivity. }
  split; [done|].
  exact (countingSortForRadix_negative_digit [5; 3; -7] 3 1 2 (-7) H1 H2 H3).
Defined.

(** X11.  [radixSort] on a range with a positive maximum and a negative value
    that is not a multiple of ten: the first pass has undefined
    behaviour. *)
Theorem radixSort_negative_element (arr : list Z) (n m i v : Z) :
  getMax arr n = Some m → 0 < m →
  0 ≤ i < n → load arr i = Some v → v < 0 → Z.rem v 10 ≠ 0 →
  radixSort arr n = None.
Proof.
  intros Hmax Hm Hi Hv Hneg Hrem.
  apply (radixSort_first_pass_fault arr n m i v); [done..|].
  by apply digit_1_negative.
Qed.

Lemma radixSort_negative_element_witness :
  (getMax radix_input_minus_one 32 = Some 9 ∧ 0 < 9 ∧ 0 ≤ 31 < 32
   ∧ load radix_input_minus_one 31 = Some (-1) ∧ -1 < 0 ∧ Z.rem (-1) 10 ≠ 0)
  ∧ radixSort radix_input_minus_one 32 = None.
Proof.
  assert (getMax radix_input_minus_one 32 = Some 9) as H1 by reflexivity.
  assert (0 < 9) as H2 by lia.
  assert (0 ≤ 31 < 32) as H3 by lia.
  assert (load radix_input_minus_one 31 = Some (-1)) as H4 by reflexivity.
  assert (-1 < 0) as H5 by lia.
  assert (Z.rem (-1) 10 ≠ 0) as H6 by (vm_compute; discriminate).
  split; [exact (conj H1 (conj H2 (conj H3 (conj H4 (conj H5 H6)))))|].
  exact (radixSort_negative_element radix_input_minus_one 32 9 31 (-1)
           H1 H2 H3 H4 H5 H6).
Defined.

(** X12.  [radixSort] on a range without a positive value makes no pass: the
    array is returned as it is, in order or not. *)
Theorem radixSort_nonpositive_unchanged (arr : list Z) (n : Z) :
  1 ≤ n ≤ Z.of_nat (length arr) →
  Forall (λ v, v ≤ 0) (take (Z.to_nat n) arr) →
  radixSort_run arr n = Some (arr, []) ∧ radixSort arr n = Some arr.
Proof.
  intros Hn Hval.
  destruct (getMax_spec arr n Hn) as (m & Hmax & Hin & _).
  rewrite Forall_forall in Hval. specialize (Hval m Hin).
  assert (radixSort_run arr n = Some (arr, [])) as Hrun.
  { unfold radixSort_run. rewrite Hmax. bind_step.
    unfold RADIX_FUEL. simpl while.
    rewrite int_div_1.
    bind_step. by destruct (Z.gtb_spec m 0); [lia|]. }
  split; [done|]. unfold radixSort. by rewrite Hrun.
Qed.

Lemma radixSort_nonpositive_unchanged_witness :
  (1 ≤ 3 ≤ Z.of_nat (length [-2; 0; -9])
   ∧ Forall (λ v, v ≤ 0) (take (Z.to_nat 3) [-2; 0; -9]))
  ∧ radixSort [-2; 0; -9] 3 = Some [-2; 0; -9].
Proof.
  assert (1 ≤ 3 ≤ Z.of_nat (length [-2; 0; -9])) as H1 by (simpl; lia).
  assert (Forall (λ v, v ≤ 0) (take (Z.to_nat 3) [-2; 0; -9])) as H2.
  { repeat (constructor; [vm_compute; discriminate|]). constructor. }
  split; [done|].
  exact (proj2 (radixSort_nonpositive_unchanged [-2; 0; -9] 3 H1 H2)).
Defined.

(** ** Utility functions *)

(** X20.  [swap] on two positions of the array exchanges their elements, leaves
    every other element where it is, and is undone by a second [swap] of
    the same positions. *)
Theorem swap_exchanges (arr : list Z) (i j : Z) :
  0 ≤ i < Z.of_nat (length arr) → 0 ≤ j < Z.of_nat (length arr) →
  ∃ arr', swap arr i j = Some arr'
          ∧ load arr' i = load arr j ∧ load arr' j = load arr i
          ∧ (∀ k, k ≠ i → k ≠ j → load arr' k = load arr k)
          ∧ swap arr' i j = Some arr.
Proof.
  intros Hi Hj.
  destruct (load_in_range arr i Hi) as [x Hx].
  destruct (load_in_range arr j Hj) as [y Hy].
  assert (∀ a u w, load a i = Some u → load a j = Some w →
            swap a i j = Some (<[Z.to_nat j := u]> (<[Z.to_nat i := w]> a)))
    as Hswap.
  { intros a u w Hu Hw. unfold swap. rewrite Hu, Hw. bind_step.
    apply load_Some in Hu as [_ Hu%lookup_lt_Some].
    apply load_Some in Hw as [_ Hw%lookup_lt_Some].
    rewrite store_in_range by lia. bind_step.
    by rewrite store_in_range by (rewrite length_insert; lia). }
  pose proof Hx as [_ Hx']%load_Some. pose proof Hy as [_ Hy']%load_Some.
  set (arr' := <[Z.to_nat j := x]> (<[Z.to_nat i := y]> arr)).
  assert (load arr' j = Some x) as Hj'.
  { apply load_Some. split; [lia|]. unfold arr'.
    apply list_lookup_insert_eq. rewrite length_insert. lia. }
  assert (load arr' i = Some y) as Hi'.
  { apply load_Some. split; [lia|]. unfold arr'.
    destruct (decide (Z.to_nat j = Z.to_nat i)) as [E|E].
    - rewrite E, list_lookup_insert_eq by (rewrite length_insert; lia).
      f_equal. assert (i = j) as -> by lia. congruence.
    - rewrite list_lookup_insert_ne by done.
      apply list_lookup_insert_eq. lia. }
  exists arr'. split; [by apply Hswap|].
  split; [congruence|]. split; [congruence|]. split.
  - intros k Hki Hkj. unfold load. destruct (Z.leb_spec 0 k); [|done].
    unfold arr'. rewrite !list_lookup_insert_ne by lia. done.
  - rewrite (Hswap arr' y x) by done. f_equal. unfold arr'.
    apply list_eq. intros k.
    destruct (decide (k = Z.to_nat j)) as [->|Hkj].
    { rewrite list_lookup_insert_eq by (rewrite !length_insert; lia). done. }
    rewrite list_lookup_insert_ne by done.
    destruct (decide (k = Z.to_nat i)) as [->|Hki].
    { rewrite list_lookup_insert_eq by (rewrite !length_insert; lia). done. }
    by rewrite !list_lookup_insert_ne by done.
Qed.

Lemma swap_exchanges_witness :
  (0 ≤ 1 < Z.of_nat (length small_array_demo)
   ∧ 0 ≤ 3 < Z.of_nat (length small_array_demo))
  ∧ ∃ arr', swap small_array_demo 1 3 = Some arr'
            ∧ load arr' 1 = load small_array_demo 3
            ∧ load arr' 3 = load small_array_demo 1
            ∧ (∀ k, k ≠ 1 → k ≠ 3 → load arr' k = load small_array_demo k)
            ∧ swap arr' 1 3 = Some small_array_demo.
Proof.
  assert (0 ≤ 1 < Z.of_nat (length small_array_demo)) as H1 by (simpl; lia).
  assert (0 ≤ 3 < Z.of_nat (length small_array_demo)) as H2 by (simpl; lia).
  split; [done|]. exact (swap_exchanges small_array_demo 1 3 H1 H2).
Defined.

(** X21.  [compareInts] on two [int]s: the difference [a - b] itself, whose
    sign orders [a] and [b], as long as that difference is an [int]; when
    the subtraction overflows, the result has the opposite sign. *)
Theorem compareInts_sign (a b : Z) :
  INT_MIN ≤ a ≤ INT_MAX → INT_MIN ≤ b ≤ INT_MAX →
  (INT_MIN ≤ a - b ≤ INT_MAX → compareInts a b = a - b)
  ∧ (INT_MAX < a - b → compareInts a b < 0)
  ∧ (a - b < INT_MIN → 0 < compareInts a b).
Proof.
  unfold compareInts, wrap, INT_MIN, INT_MAX. intros Ha Hb.
  split; [|split]; intros Hd.
  - rewrite Z.mod_small; lia.
  - replace (a - b + 2 ^ 31) with (a - b + 2 ^ 31 - 2 ^ 32 + 1 * 2 ^ 32) by lia.
    rewrite Z.mod_add by lia. rewrite Z.mod_small; lia.
  - replace (a - b + 2 ^ 31) with (a - b + 2 ^ 31 + 2 ^ 32 + (-1) * 2 ^ 32) by lia.
    rewrite Z.mod_add by lia. rewrite Z.mod_small; lia.
Qed.

Lemma compareInts_sign_witness :
  (INT_MIN ≤ 2000000000 ≤ INT_MAX ∧ INT_MIN ≤ -2000000000 ≤ INT_MAX
   ∧ INT_MAX < 2000000000 - -2000000000)
  ∧ compareInts 2000000000 (-2000000000) < 0.
Proof.
  assert (INT_MIN ≤ 2000000000 ≤ INT_MAX) as H1 by (unfold INT_MIN, INT_MAX; lia).
  assert (INT_MIN ≤ -2000000000 ≤ INT_MAX) as H2
    by (unfold INT_MIN, INT_MAX; lia).
  assert (INT_MAX < 2000000000 - -2000000000) as H3 by (unfold INT_MAX; lia).
  split; [done|].
  exact (proj1 (proj2 (compareInts_sign 2000000000 (-2000000000) H1 H2)) H3).
Defined.

(** ** The dispatcher outside the precondition of radix sort *)

(** X19.  From [INSERTION_SORT_THRESHOLD] elements on, when [analyzeData]
    answers [STRATEGY_RADIXSORT] although the range holds a positive value
    and a negative value that is not a multiple of ten, the call of
    [adaptiveHybridSort] has undefined behaviour: the first counting pass
    indexes [count] below zero. *)
Theorem adaptiveHybridSort_radix_fault (W S : list Z) (p v : Z) :
  INSERTION_SORT_THRESHOLD ≤ Z.of_nat (length W) →
  analyzeData (W ++ S) (Z.of_nat (length W)) = Some STRATEGY_RADIXSORT →
  p ∈ W → 0 < p → v ∈ W → v < 0 → Z.rem v 10 ≠ 0 →
  adaptiveHybridSort (W ++ S) (Z.of_nat (length W)) = None.
Proof.
  unfold INSERTION_SORT_THRESHOLD. intros Hn Hradix Hp Hpos Hv Hneg Hrem.
  unfold adaptiveHybridSort.
  destruct (Z.leb_spec (Z.of_nat (length W)) 1); [lia|].
  destruct (Z.ltb_spec (Z.of_nat (length W)) INSERTION_SORT_THRESHOLD);
    [unfold INSERTION_SORT_THRESHOLD in *; lia|].
  rewrite Hradix. bind_step.
  destruct (getMax_spec (W ++ S) (Z.of_nat (length W))) as (m & Hmax & _ & Hle).
  { rewrite length_app. lia. }
  rewrite Nat2Z.id, take_app_length, Forall_forall in Hle.
  specialize (Hle p Hp).
  apply list_elem_of_lookup_1 in Hv as [i Hi].
  pose proof (lookup_lt_Some _ _ _ Hi) as Hlt.
  apply (radixSort_first_pass_fault _ _ m (Z.of_nat i) v).
  - done.
  - lia.
  - lia.
  - rewrite load_lookup. by apply lookup_app_l_Some.
  - by apply digit_1_negative.
Qed.

Lemma adaptiveHybridSort_radix_fault_witness :
  (INSERTION_SORT_THRESHOLD ≤ Z.of_nat (length radix_input_minus_one)
   ∧ analyzeData (radix_input_minus_one ++ [])
       (Z.of_nat (length radix_input_minus_one)) = Some STRATEGY_RADIXSORT
   ∧ 9 ∈ radix_input_minus_one ∧ 0 < 9
   ∧ -1 ∈ radix_input_minus_one ∧ -1 < 0 ∧ Z.rem (-1) 10 ≠ 0)
  ∧ adaptiveHybridSort (radix_input_minus_one ++ [])
      (Z.of_nat (length radix_input_minus_one)) = None.
Proof.
  assert (INSERTION_SORT_THRESHOLD ≤ Z.of_nat (length radix_input_minus_one))
    as H1 by (vm_compute; discriminate).
  assert (analyzeData (radix_input_minus_one ++ [])
            (Z.of_nat (length radix_input_minus_one))
          = Some STRATEGY_RADIXSORT) as H2 by reflexivity.
  assert (9 ∈ radix_input_minus_one) as H3 by apply list_elem_of_here.
  assert (0 < 9) as H4 by lia.
  assert (-1 ∈ radix_input_minus_one) as H5
    by (by apply (list_elem_of_lookup_2 _ 31%nat)).
  assert (-1 < 0) as H6 by lia.
  assert (Z.rem (-1) 10 ≠ 0) as H7 by (vm_compute; discriminate).
  split; [exact (conj H1 (conj H2 (conj H3 (conj H4 (conj H5 (conj H6 H7))))))|].
  exact (adaptiveHybridSort_radix_fault radix_input_minus_one [] 9 (-1)
           H1 H2 H3 H4 H5 H6 H7).
Defined.
